(** * Insect project (src/main.py): quiz controller and audio player

    A shallow embedding of the quiz / learn-mode controller
    [InsectController] and of the [AudioPlayer] of src/main.py.

    - Python's [random] module is modelled by an explicit stream of draws
      ([rng : list nat]); [randbelow n] consumes one draw and reduces it
      modulo [n].  [random.sample] and [random.shuffle] are CPython's own
      algorithms written over this stream.
    - Tk's [root.after] queue is a list of jobs with ids and due times; a
      job is a first-order description of the Python callback.
    - The file system is a predicate [fs] on file names ([Path.exists]). *)

From stdpp Require Import base list gmap sets strings pretty.

Local Open Scope string_scope.
Local Open Scope list_scope.

(* ------------------------------------------------------------------ *)
(** ** Configuration constants *)

Definition HOLD_SECONDS_MS : nat := 2000.        (* int(HOLD_SECONDS * 1000) *)
Definition ANSWER_SECONDS : nat := 10.
Definition FLASH_INTERVAL_MS : nat := 400.
Definition RESULT_FLASH_MS : nat := 3000.        (* int(RESULT_FLASH_SECONDS * 1000) *)
Definition INTERRUPT_AUDIO : bool := true.
Definition QUIZ_ROUNDS : nat := 5.

Definition INSECT_KEYS : list string :=
  ["insect1"; "insect2"; "insect3"; "insect4";
   "insect5"; "insect6"; "insect7"; "insect8"].

(** [self.slot_keys = list(self.slots.keys())], where [self.slots] is built
    from [slot_list()], which makes one slot per entry of [INSECT_KEYS]. *)
Definition slot_keys : list string := INSECT_KEYS.

(* ------------------------------------------------------------------ *)
(** ** Python's [random] over a stream of draws *)

Module Random.

(** [_randbelow(n)]: one draw, reduced into [0, n). *)
Definition randbelow (rng : list nat) (n : nat) : nat * list nat :=
  match rng with
  | [] => (0, [])
  | h :: t => (h mod n, t)
  end.

(** The pool branch of CPython's [random.sample] (taken whenever the
    population has at most 21 elements, which is always the case here):
<<
    pool = list(population)
    for i in range(k):
        j = randbelow(n - i)
        result[i] = pool[j]
        pool[j] = pool[n - i - 1]
>>
    [m] is [n - i], the size of the still-unpicked prefix of [pool]. *)
Fixpoint sample_loop (pool : list string) (m k : nat) (rng : list nat)
  : list string * list nat :=
  match k with
  | 0 => ([], rng)
  | S k' =>
      let '(j, rng1) := randbelow rng m in
      let x := pool !!! j in
      let pool' := <[j := pool !!! (m - 1)]> pool in
      let '(rest, rng2) := sample_loop pool' (m - 1) k' rng1 in
      (x :: rest, rng2)
  end.

(** [random.sample(population, k)]; [None] is the [ValueError] raised
    when [k > len(population)]. *)
Definition sample (population : list string) (k : nat) (rng : list nat)
  : option (list string * list nat) :=
  if decide (k <= length population)
  then Some (sample_loop population (length population) k rng)
  else None.

(** [x[i], x[j] = x[j], x[i]]: the right-hand side is read first, then
    [x[i]] and [x[j]] are assigned in that order. *)
Definition swap (x : list string) (i j : nat) : list string :=
  let xi := x !!! i in
  let xj := x !!! j in
  <[j := xi]> (<[i := xj]> x).

(** [random.shuffle(x)]:
<<
    for i in reversed(range(1, len(x))):
        j = randbelow(i + 1)
        x[i], x[j] = x[j], x[i]
>>
    [shuffle_loop i] runs the iterations for [i, i-1, ..., 1]. *)
Fixpoint shuffle_loop (i : nat) (x : list string) (rng : list nat)
  : list string * list nat :=
  match i with
  | 0 => (x, rng)
  | S i' =>
      let '(j, rng1) := randbelow rng (S i) in
      shuffle_loop i' (swap x i j) rng1
  end.

Definition shuffle (x : list string) (rng : list nat) : list string * list nat :=
  shuffle_loop (length x - 1) x rng.

End Random.

(* ------------------------------------------------------------------ *)
(** ** [InsectController._pick_4_options]
<<
    others = [k for k in self.slot_keys if k != correct_key]
    picks = random.sample(others, 3) + [correct_key]
    random.shuffle(picks)
    return picks
>>
    [None] is the [ValueError] of [random.sample]. *)

Definition others_of (keys : list string) (correct_key : string) : list string :=
  filter (fun k => k <> correct_key) keys.

Definition pick_4_options (keys : list string) (correct_key : string)
    (rng : list nat) : option (list string * list nat) :=
  match Random.sample (others_of keys correct_key) 3 rng with
  | None => None
  | Some (s, rng1) => Some (Random.shuffle (s ++ [correct_key]) rng1)
  end.

(* ------------------------------------------------------------------ *)
(** ** [AudioPlayer]

    The player state is [self._token], [self._stop_event] and the playback
    threads started by [play] that have not reached the [finally] of
    [_play_thread] yet, each with the [token], [wav_path] and [on_done] it
    was started with.  [self._proc] and the subprocess it holds are not
    modelled: a thread that sees [_stop_event] set or a token mismatch in
    its polling loop terminates its process and returns, and every way out
    of [_play_thread] (natural end, early return, no audio program found,
    an exception) runs the same [finally] block, which is the event
    [EFinish token].  [on_done] is opaque: a value of type [Cb]. *)

Module Audio.
Section Player.
Context {Cb : Type}.

Record player := mkPlayer {
  token : nat;
  stop_event : bool;
  threads : list (nat * string * option Cb)
}.

Definition init : player := mkPlayer 0 false [].

(** [stop()]: [self._token += 1; self._stop_event.set()], then the process
    is terminated. *)
Definition stop (s : player) : player :=
  mkPlayer (S (token s)) true (threads s).

(** [play(wav_path, on_done)]; [exists_] is [wav_path.exists()]. *)
Definition play (exists_ : bool) (wav : string) (on_done : option Cb)
    (s : player) : player :=
  if negb exists_ then s
  else
    let s1 := if INTERRUPT_AUDIO then stop s else s in
    let t := S (token s1) in
    mkPlayer t false (threads s1 ++ [(t, wav, on_done)]).

(** The thread holding [token t] leaves the list of running threads. *)
Fixpoint take_thread (t : nat) (ths : list (nat * string * option Cb))
  : option (option Cb) * list (nat * string * option Cb) :=
  match ths with
  | [] => (None, [])
  | (t', w, cb) :: rest =>
      if Nat.eqb t' t then (Some cb, rest)
      else let '(r, rest') := take_thread t rest in (r, (t', w, cb) :: rest')
  end.

(** The [finally] of [_play_thread] for the thread started with [token t]:
<<
    if on_done and (not self._stop_event.is_set()) and token == self._token:
        on_done()
>>
    The second component is the callback invoked, if any. *)
Definition finish (t : nat) (s : player) : player * option Cb :=
  match take_thread t (threads s) with
  | (None, _) => (s, None)
  | (Some on_done, rest) =>
      let s' := mkPlayer (token s) (stop_event s) rest in
      match on_done with
      | Some cb =>
          if negb (stop_event s) && Nat.eqb t (token s) then (s', Some cb)
          else (s', None)
      | None => (s', None)
      end
  end.

(** Calls into the player: [play] and [stop] from the UI thread, and the
    end of a playback thread. *)
Inductive event :=
| EPlay (exists_ : bool) (wav : string) (on_done : option Cb)
| EStop
| EFinish (t : nat).

Definition step (s : player) (e : event) : player * list Cb :=
  match e with
  | EPlay ex w cb => (play ex w cb s, [])
  | EStop => (stop s, [])
  | EFinish t =>
      let '(s', r) := finish t s in
      (s', match r with Some cb => [cb] | None => [] end)
  end.

(** Runs a sequence of calls; the list collects the [on_done] callbacks
    invoked, in order. *)
Fixpoint run (s : player) (es : list event) : player * list Cb :=
  match es with
  | [] => (s, [])
  | e :: es' =>
      let '(s1, o1) := step s e in
      let '(s2, o2) := run s1 es' in
      (s2, o1 ++ o2)
  end.

(** A call that forcibly stops or supersedes the current playback. *)
Definition interrupts (e : event) : bool :=
  match e with
  | EStop => true
  | EPlay true _ _ => true
  | _ => false
  end.

(** [e] is not a [play] call carrying the callback [c]. *)
Definition not_play_of (c : Cb) (e : event) : Prop :=
  match e with
  | EPlay _ _ (Some c') => c' <> c
  | _ => True
  end.

Definition count_cb `{EqDecision Cb} (c : Cb) (log : list Cb) : nat :=
  length (filter (fun x => x = c) log).

End Player.
Arguments event : clear implicits.
Arguments player : clear implicits.
End Audio.

(* ------------------------------------------------------------------ *)
(** ** [InsectController]: state *)

(** The [after_done] continuations handed to [_play_audio_locked]. *)
Inductive after_done :=
| ADStatusReady                 (* lambda: self.status.set("Ready") *)
| ADPlayQuestion                (* self._play_question *)
| ADStartAnswerWindow           (* self._start_answer_window *)
| ADSlotAfter (key : string)    (* after() in _play_slot_audio *)
| ADFeedbackAfter.              (* after() in _feedback *)

(** The callbacks registered with [root.after]. *)
Inductive job :=
| JHoldFire (key : string)                   (* lambda k=key: self._insect_hold_fire(k) *)
| JStartQuizHoldFire                         (* self._start_quiz_hold_fire *)
| JFlashUniformTick (color : string) (interval_ms : nat)  (* tick() of _flash_uniform *)
| JFlashMultiTick (interval_ms : nat)        (* tick() of _flash_multicolor *)
| JEndFlash                                  (* self._end_flash *)
| JTimeout                                   (* self._timeout *)
| JOnUI (ad : option after_done)             (* on_ui() of _play_audio_locked *)
| JAfterDone (ad : after_done).              (* root.after(0, after_done), missing file *)

(** The controller's attributes.  Widget handles and [_apply_ui_state]
    (which only enables or disables Tk buttons from the fields below) are
    left out; so is [print].  The audio player's [on_done] is always the
    [done_on_audio_thread] closure of [_play_audio_locked], identified by
    the [after_done] it captured. *)
Record ctrl := mkCtrl {
  pressed : option (string * string);  (* self._pressed: ("insect"/"quiz", key) *)
  input_locked : bool;
  hold_jobs : gmap string nat;  (* self._hold_jobs *)
  hold_fired : gset string;  (* self._hold_fired *)
  quiz_job : option nat;  (* self._quiz_job *)
  quiz_hold_fired : bool;  (* self._quiz_hold_fired *)
  quiz_active : bool;
  quiz_waiting : bool;
  q_index : nat;
  score : nat;
  answer_timeout_job : option nat;  (* self._answer_timeout_job *)
  quiz_options : list string;
  quiz_sequence : list string;
  flash_job : option nat;  (* self._flash_job *)
  flash_end_job : option nat;  (* self._flash_end_job *)
  flash_on : bool;  (* self._flash_on *)
  flash_keys : list string;  (* self._flash_keys *)
  flash_map : list (string * string);  (* self._flash_map, an insertion-ordered dict *)
  leds : list (string * string);  (* lamp colours of the [TkLedOutput] dots, in dict order *)
  status : string;  (* the [status] StringVar *)
  audio : Audio.player (option after_done);  (* the [AudioPlayer] *)
  rng : list nat;  (* the draws [random] will make *)
  timers : list (nat * nat * job);  (* Tk's [after] queue: id, due time (ms), callback *)
  next_id : nat;  (* the id the next [root.after] returns *)
  now : nat  (* the clock of the event loop (ms) *)
}.

(** One setter per field ([self.<field> = v]). *)
Definition set_pressed (v : option (string * string)) (s : ctrl) : ctrl :=
  mkCtrl v (input_locked s) (hold_jobs s) (hold_fired s) (quiz_job s) (quiz_hold_fired s) (quiz_active s) (quiz_waiting s) (q_index s) (score s) (answer_timeout_job s) (quiz_options s) (quiz_sequence s) (flash_job s) (flash_end_job s) (flash_on s) (flash_keys s) (flash_map s) (leds s) (status s) (audio s) (rng s) (timers s) (next_id s) (now s).
Definition set_input_locked (v : bool) (s : ctrl) : ctrl :=
  mkCtrl (pressed s) v (hold_jobs s) (hold_fired s) (quiz_job s) (quiz_hold_fired s) (quiz_active s) (quiz_waiting s) (q_index s) (score s) (answer_timeout_job s) (quiz_options s) (quiz_sequence s) (flash_job s) (flash_end_job s) (flash_on s) (flash_keys s) (flash_map s) (leds s) (status s) (audio s) (rng s) (timers s) (next_id s) (now s).
Definition set_hold_jobs (v : gmap string nat) (s : ctrl) : ctrl :=
  mkCtrl (pressed s) (input_locked s) v (hold_fired s) (quiz_job s) (quiz_hold_fired s) (quiz_active s) (quiz_waiting s) (q_index s) (score s) (answer_timeout_job s) (quiz_options s) (quiz_sequence s) (flash_job s) (flash_end_job s) (flash_on s) (flash_keys s) (flash_map s) (leds s) (status s) (audio s) (rng s) (timers s) (next_id s) (now s).
Definition set_hold_fired (v : gset string) (s : ctrl) : ctrl :=
  mkCtrl (pressed s) (input_locked s) (hold_jobs s) v (quiz_job s) (quiz_hold_fired s) (quiz_active s) (quiz_waiting s) (q_index s) (score s) (answer_timeout_job s) (quiz_options s) (quiz_sequence s) (flash_job s) (flash_end_job s) (flash_on s) (flash_keys s) (flash_map s) (leds s) (status s) (audio s) (rng s) (timers s) (next_id s) (now s).
Definition set_quiz_job (v : option nat) (s : ctrl) : ctrl :=
  mkCtrl (pressed s) (input_locked s) (hold_jobs s) (hold_fired s) v (quiz_hold_fired s) (quiz_active s) (quiz_waiting s) (q_index s) (score s) (answer_timeout_job s) (quiz_options s) (quiz_sequence s) (flash_job s) (flash_end_job s) (flash_on s) (flash_keys s) (flash_map s) (leds s) (status s) (audio s) (rng s) (timers s) (next_id s) (now s).
Definition set_quiz_hold_fired (v : bool) (s : ctrl) : ctrl :=
  mkCtrl (pressed s) (input_locked s) (hold_jobs s) (hold_fired s) (quiz_job s) v (quiz_active s) (quiz_waiting s) (q_index s) (score s) (answer_timeout_job s) (quiz_options s) (quiz_sequence s) (flash_job s) (flash_end_job s) (flash_on s) (flash_keys s) (flash_map s) (leds s) (status s) (audio s) (rng s) (timers s) (next_id s) (now s).
Definition set_quiz_active (v : bool) (s : ctrl) : ctrl :=
  mkCtrl (pressed s) (input_locked s) (hold_jobs s) (hold_fired s) (quiz_job s) (quiz_hold_fired s) v (quiz_waiting s) (q_index s) (score s) (answer_timeout_job s) (quiz_options s) (quiz_sequence s) (flash_job s) (flash_end_job s) (flash_on s) (flash_keys s) (flash_map s) (leds s) (status s) (audio s) (rng s) (timers s) (next_id s) (now s).
Definition set_quiz_waiting (v : bool) (s : ctrl) : ctrl :=
  mkCtrl (pressed s) (input_locked s) (hold_jobs s) (hold_fired s) (quiz_job s) (quiz_hold_fired s) (quiz_active s) v (q_index s) (score s) (answer_timeout_job s) (quiz_options s) (quiz_sequence s) (flash_job s) (flash_end_job s) (flash_on s) (flash_keys s) (flash_map s) (leds s) (status s) (audio s) (rng s) (timers s) (next_id s) (now s).
Definition set_q_index (v : nat) (s : ctrl) : ctrl :=
  mkCtrl (pressed s) (input_locked s) (hold_jobs s) (hold_fired s) (quiz_job s) (quiz_hold_fired s) (quiz_active s) (quiz_waiting s) v (score s) (answer_timeout_job s) (quiz_options s) (quiz_sequence s) (flash_job s) (flash_end_job s) (flash_on s) (flash_keys s) (flash_map s) (leds s) (status s) (audio s) (rng s) (timers s) (next_id s) (now s).
Definition set_score (v : nat) (s : ctrl) : ctrl :=
  mkCtrl (pressed s) (input_locked s) (hold_jobs s) (hold_fired s) (quiz_job s) (quiz_hold_fired s) (quiz_active s) (quiz_waiting s) (q_index s) v (answer_timeout_job s) (quiz_options s) (quiz_sequence s) (flash_job s) (flash_end_job s) (flash_on s) (flash_keys s) (flash_map s) (leds s) (status s) (audio s) (rng s) (timers s) (next_id s) (now s).
Definition set_answer_timeout_job (v : option nat) (s : ctrl) : ctrl :=
  mkCtrl (pressed s) (input_locked s) (hold_jobs s) (hold_fired s) (quiz_job s) (quiz_hold_fired s) (quiz_active s) (quiz_waiting s) (q_index s) (score s) v (quiz_options s) (quiz_sequence s) (flash_job s) (flash_end_job s) (flash_on s) (flash_keys s) (flash_map s) (leds s) (status s) (audio s) (rng s) (timers s) (next_id s) (now s).
Definition set_quiz_options (v : list string) (s : ctrl) : ctrl :=
  mkCtrl (pressed s) (input_locked s) (hold_jobs s) (hold_fired s) (quiz_job s) (quiz_hold_fired s) (quiz_active s) (quiz_waiting s) (q_index s) (score s) (answer_timeout_job s) v (quiz_sequence s) (flash_job s) (flash_end_job s) (flash_on s) (flash_keys s) (flash_map s) (leds s) (status s) (audio s) (rng s) (timers s) (next_id s) (now s).
Definition set_quiz_sequence (v : list string) (s : ctrl) : ctrl :=
  mkCtrl (pressed s) (input_locked s) (hold_jobs s) (hold_fired s) (quiz_job s) (quiz_hold_fired s) (quiz_active s) (quiz_waiting s) (q_index s) (score s) (answer_timeout_job s) (quiz_options s) v (flash_job s) (flash_end_job s) (flash_on s) (flash_keys s) (flash_map s) (leds s) (status s) (audio s) (rng s) (timers s) (next_id s) (now s).
Definition set_flash_job (v : option nat) (s : ctrl) : ctrl :=
  mkCtrl (pressed s) (input_locked s) (hold_jobs s) (hold_fired s) (quiz_job s) (quiz_hold_fired s) (quiz_active s) (quiz_waiting s) (q_index s) (score s) (answer_timeout_job s) (quiz_options s) (quiz_sequence s) v (flash_end_job s) (flash_on s) (flash_keys s) (flash_map s) (leds s) (status s) (audio s) (rng s) (timers s) (next_id s) (now s).
Definition set_flash_end_job (v : option nat) (s : ctrl) : ctrl :=
  mkCtrl (pressed s) (input_locked s) (hold_jobs s) (hold_fired s) (quiz_job s) (quiz_hold_fired s) (quiz_active s) (quiz_waiting s) (q_index s) (score s) (answer_timeout_job s) (quiz_options s) (quiz_sequence s) (flash_job s) v (flash_on s) (flash_keys s) (flash_map s) (leds s) (status s) (audio s) (rng s) (timers s) (next_id s) (now s).
Definition set_flash_on (v : bool) (s : ctrl) : ctrl :=
  mkCtrl (pressed s) (input_locked s) (hold_jobs s) (hold_fired s) (quiz_job s) (quiz_hold_fired s) (quiz_active s) (quiz_waiting s) (q_index s) (score s) (answer_timeout_job s) (quiz_options s) (quiz_sequence s) (flash_job s) (flash_end_job s) v (flash_keys s) (flash_map s) (leds s) (status s) (audio s) (rng s) (timers s) (next_id s) (now s).
Definition set_flash_keys (v : list string) (s : ctrl) : ctrl :=
  mkCtrl (pressed s) (input_locked s) (hold_jobs s) (hold_fired s) (quiz_job s) (quiz_hold_fired s) (quiz_active s) (quiz_waiting s) (q_index s) (score s) (answer_timeout_job s) (quiz_options s) (quiz_sequence s) (flash_job s) (flash_end_job s) (flash_on s) v (flash_map s) (leds s) (status s) (audio s) (rng s) (timers s) (next_id s) (now s).
Definition set_flash_map (v : list (string * string)) (s : ctrl) : ctrl :=
  mkCtrl (pressed s) (input_locked s) (hold_jobs s) (hold_fired s) (quiz_job s) (quiz_hold_fired s) (quiz_active s) (quiz_waiting s) (q_index s) (score s) (answer_timeout_job s) (quiz_options s) (quiz_sequence s) (flash_job s) (flash_end_job s) (flash_on s) (flash_keys s) v (leds s) (status s) (audio s) (rng s) (timers s) (next_id s) (now s).
Definition set_leds (v : list (string * string)) (s : ctrl) : ctrl :=
  mkCtrl (pressed s) (input_locked s) (hold_jobs s) (hold_fired s) (quiz_job s) (quiz_hold_fired s) (quiz_active s) (quiz_waiting s) (q_index s) (score s) (answer_timeout_job s) (quiz_options s) (quiz_sequence s) (flash_job s) (flash_end_job s) (flash_on s) (flash_keys s) (flash_map s) v (status s) (audio s) (rng s) (timers s) (next_id s) (now s).
Definition set_status (v : string) (s : ctrl) : ctrl :=
  mkCtrl (pressed s) (input_locked s) (hold_jobs s) (hold_fired s) (quiz_job s) (quiz_hold_fired s) (quiz_active s) (quiz_waiting s) (q_index s) (score s) (answer_timeout_job s) (quiz_options s) (quiz_sequence s) (flash_job s) (flash_end_job s) (flash_on s) (flash_keys s) (flash_map s) (leds s) v (audio s) (rng s) (timers s) (next_id s) (now s).
Definition set_audio (v : Audio.player (option after_done)) (s : ctrl) : ctrl :=
  mkCtrl (pressed s) (input_locked s) (hold_jobs s) (hold_fired s) (quiz_job s) (quiz_hold_fired s) (quiz_active s) (quiz_waiting s) (q_index s) (score s) (answer_timeout_job s) (quiz_options s) (quiz_sequence s) (flash_job s) (flash_end_job s) (flash_on s) (flash_keys s) (flash_map s) (leds s) (status s) v (rng s) (timers s) (next_id s) (now s).
Definition set_rng (v : list nat) (s : ctrl) : ctrl :=
  mkCtrl (pressed s) (input_locked s) (hold_jobs s) (hold_fired s) (quiz_job s) (quiz_hold_fired s) (quiz_active s) (quiz_waiting s) (q_index s) (score s) (answer_timeout_job s) (quiz_options s) (quiz_sequence s) (flash_job s) (flash_end_job s) (flash_on s) (flash_keys s) (flash_map s) (leds s) (status s) (audio s) v (timers s) (next_id s) (now s).
Definition set_timers (v : list (nat * nat * job)) (s : ctrl) : ctrl :=
  mkCtrl (pressed s) (input_locked s) (hold_jobs s) (hold_fired s) (quiz_job s) (quiz_hold_fired s) (quiz_active s) (quiz_waiting s) (q_index s) (score s) (answer_timeout_job s) (quiz_options s) (quiz_sequence s) (flash_job s) (flash_end_job s) (flash_on s) (flash_keys s) (flash_map s) (leds s) (status s) (audio s) (rng s) v (next_id s) (now s).
Definition set_next_id (v : nat) (s : ctrl) : ctrl :=
  mkCtrl (pressed s) (input_locked s) (hold_jobs s) (hold_fired s) (quiz_job s) (quiz_hold_fired s) (quiz_active s) (quiz_waiting s) (q_index s) (score s) (answer_timeout_job s) (quiz_options s) (quiz_sequence s) (flash_job s) (flash_end_job s) (flash_on s) (flash_keys s) (flash_map s) (leds s) (status s) (audio s) (rng s) (timers s) v (now s).
Definition set_now (v : nat) (s : ctrl) : ctrl :=
  mkCtrl (pressed s) (input_locked s) (hold_jobs s) (hold_fired s) (quiz_job s) (quiz_hold_fired s) (quiz_active s) (quiz_waiting s) (q_index s) (score s) (answer_timeout_job s) (quiz_options s) (quiz_sequence s) (flash_job s) (flash_end_job s) (flash_on s) (flash_keys s) (flash_map s) (leds s) (status s) (audio s) (rng s) (timers s) (next_id s) v.

(** File names, as resolved by [find_ci] under [sounds/]. *)
Definition QUIZ_WELCOME_WAV : string := "quiz_welcome.wav".
Definition QUIZ_READY_WAV : string := "quiz_ready.wav".
Definition QUIZ_ABORT_WAV : string := "quiz_abort.wav".
Definition CORRECT_WAV : string := "correct.wav".
Definition INCORRECT_WAV : string := "incorrect.wav".
Definition QUIZ_COMPLETE_NAMES : list string :=
  ["quiz_complete.wav"; "quiz_comple.wav"; "quize_comple.wav"; "quiz_completed.wav"].

(** [slot.sound_wav] and [slot.narration_wav] of [slot_list()]. *)
Definition sound_wav (key : string) : string := (key ++ "_sound.wav")%string.
Definition narration_wav (key : string) : string := (key ++ "_narration.wav")%string.

(** The [TkLedOutput] built by [build_ui]: one gray lamp per slot. *)
Definition initial_leds : list (string * string) := map (fun k => (k, "gray")) INSECT_KEYS.

(** [TkLedOutput.set_color]: [self.dots.get(key)] and refill if present. *)
Definition led_set_color (key color : string) (ls : list (string * string))
  : list (string * string) :=
  map (fun '(k, c) => if String.eqb k key then (k, color) else (k, c)) ls.

(** [TkLedOutput.set_all]. *)
Definition led_set_all (color : string) (ls : list (string * string))
  : list (string * string) :=
  map (fun '(k, _) => (k, color)) ls.

(** [d[k] = v] on an insertion-ordered dict. *)
Definition dict_set (k v : string) (d : list (string * string)) : list (string * string) :=
  if existsb (fun '(k', _) => String.eqb k' k) d
  then map (fun '(k', v') => if String.eqb k' k then (k', v) else (k', v')) d
  else d ++ [(k, v)].

(** The controller right after [InsectController.__init__] and [build_ui]. *)
Definition initial_ctrl (rng0 : list nat) : ctrl :=
  mkCtrl None false ∅ ∅ None false false false 0 0 None [] [] None None false [] []
    initial_leds "Ready" Audio.init rng0 [] 0 0.

(* ------------------------------------------------------------------ *)
(** ** The controller's methods

    A method is a state transformer that may raise a Python exception
    ([IndexError] on [quiz_sequence[q_index]], [KeyError] on [slots[key]],
    [ValueError] of [random.sample]).  Tk reports an exception raised by a
    callback and keeps running, so the state reached at the [raise] is
    kept. *)

Definition M (A : Type) : Type := ctrl -> option A * ctrl.

Global Instance M_ret : MRet M := fun A x s => (Some x, s).
Global Instance M_bind : MBind M := fun A B k m s =>
  match m s with
  | (Some x, s') => k x s'
  | (None, s') => (None, s')
  end.

Definition bind {A B : Type} (m : M A) (k : A -> M B) : M B := mbind k m.

(** [let* x := m in k] runs [m], then [k] on its result; [m ;; k] drops
    the result. *)
Notation "'let*' x ':=' m 'in' k" := (bind m (fun x => k))
  (at level 200, x name, m at level 100, k at level 200, only parsing).

Definition raise {A : Type} : M A := fun s => (None, s).
Definition gets {A : Type} (f : ctrl -> A) : M A := fun s => (Some (f s), s).
Definition modify (f : ctrl -> ctrl) : M unit := fun s => (Some tt, f s).
Definition skip : M unit := mret tt.

(** [self.root.after(ms, callback)]: returns the new job id. *)
Definition after (ms : nat) (j : job) : M nat := fun s =>
  let id := next_id s in
  (Some id, set_next_id (S id) (set_timers (timers s ++ [(id, now s + ms, j)]) s)).

(** [self.root.after_cancel(id)] (inside [try]: never raises here). *)
Definition after_cancel (id : nat) : M unit :=
  modify (fun s => set_timers (filter (fun x => x.1.1 <> id) (timers s)) s).

Definition set_all (color : string) : M unit :=
  modify (fun s => set_leds (led_set_all color (leds s)) s).
Definition set_color (key color : string) : M unit :=
  modify (fun s => set_leds (led_set_color key color (leds s)) s).
Definition status_set (msg : string) : M unit := modify (set_status msg).

Fixpoint for_each {A : Type} (xs : list A) (f : A -> M unit) : M unit :=
  match xs with
  | [] => skip
  | x :: xs' => f x;; for_each xs' f
  end.

Section Methods.
(** [Path.exists()] on the resolved file names. *)
Variable fs : string -> bool.

Definition audio_play (wav : string) (on_done : option (option after_done)) : M unit :=
  modify (fun s => set_audio (Audio.play (fs wav) wav on_done (audio s)) s).
Definition audio_stop : M unit :=
  modify (fun s => set_audio (Audio.stop (audio s)) s).

Definition lock_inputs : M unit := modify (set_input_locked true).
Definition unlock_inputs : M unit := modify (set_input_locked false).

Definition begin_press (press_type key : string) : M bool :=
  let* locked := gets input_locked in
  if locked then mret false else
  let* p := gets pressed in
  match p with
  | Some _ => mret false
  | None => modify (set_pressed (Some (press_type, key)));; mret true
  end.

Definition end_press (press_type key : string) : M unit :=
  let* p := gets pressed in
  if bool_decide (p = Some (press_type, key)) then modify (set_pressed None) else skip.

(** [_play_audio_locked(wav_path, after_done)]; the audio player gets the
    [done_on_audio_thread] closure for [after_done]. *)
Definition play_audio_locked (wav : string) (ad : option after_done) : M unit :=
  if negb (fs wav) then
    match ad with
    | Some a => let* _ := after 0 (JAfterDone a) in skip
    | None => skip
    end
  else
    lock_inputs;;
    audio_play wav (Some ad).

(** [if self._X: after_cancel(self._X); self._X = None] *)
Definition cancel_job (get : ctrl -> option nat) (put : option nat -> ctrl -> ctrl) : M unit :=
  let* j := gets get in
  match j with
  | Some id => after_cancel id;; modify (put None)
  | None => skip
  end.

Definition stop_flash : M unit :=
  cancel_job flash_job set_flash_job;;
  cancel_job flash_end_job set_flash_end_job;;
  modify (set_flash_on false).

Definition end_flash : M unit :=
  stop_flash;;
  set_all "gray".

(** [tick()] of [_flash_uniform]. *)
Definition flash_uniform_tick (color : string) (interval_ms : nat) : M unit :=
  let* on := gets flash_on in
  modify (set_flash_on (negb on));;
  set_all "gray";;
  let* ks := gets flash_keys in
  for_each ks (fun k => let* on' := gets flash_on in set_color k (if on' then color else "gray"));;
  let* id := after interval_ms (JFlashUniformTick color interval_ms) in
  modify (set_flash_job (Some id)).

Definition flash_uniform (keys : list string) (color : string) (interval_ms duration_ms : nat)
  : M unit :=
  stop_flash;;
  modify (set_flash_keys keys);;
  modify (set_flash_on false);;
  set_all "gray";;
  flash_uniform_tick color interval_ms;;
  let* id := after duration_ms JEndFlash in
  modify (set_flash_end_job (Some id)).

(** [tick()] of [_flash_multicolor]. *)
Definition flash_multi_tick (interval_ms : nat) : M unit :=
  let* on := gets flash_on in
  modify (set_flash_on (negb on));;
  set_all "gray";;
  let* on' := gets flash_on in
  (if on' then
     let* m := gets flash_map in
     for_each m (fun '(k, col) => set_color k col)
   else skip);;
  let* id := after interval_ms (JFlashMultiTick interval_ms) in
  modify (set_flash_job (Some id)).

Definition flash_multicolor (color_map : list (string * string)) (interval_ms duration_ms : nat)
  : M unit :=
  stop_flash;;
  modify (set_flash_map color_map);;
  modify (set_flash_on false);;
  set_all "gray";;
  flash_multi_tick interval_ms;;
  let* id := after duration_ms JEndFlash in
  modify (set_flash_end_job (Some id)).

(* ---------- Learn mode ---------- *)

(** [_play_slot_audio(key, short)]; [self.slots[key]] raises [KeyError]
    for a key that is not a slot. *)
Definition play_slot_audio (key : string) (short : bool) : M unit :=
  if negb (bool_decide (key ∈ slot_keys)) then raise else
  let wav0 := if short then sound_wav key else narration_wav key in
  let wav := if negb short && negb (fs wav0) then sound_wav key else wav0 in
  if negb (fs wav) then status_set ("Missing: " ++ wav)%string else
  end_flash;;
  set_all "gray";;
  set_color key "green";;
  status_set ((if short then "Sound" else "Hold") ++ ": " ++ key)%string;;
  play_audio_locked wav (Some (ADSlotAfter key)).

Definition on_insect_down (key : string) : M unit :=
  let* active := gets quiz_active in
  if active then skip else
  let* ok := begin_press "insect" key in
  if negb ok then skip else
  modify (fun s => set_hold_fired (hold_fired s ∖ {[key]}) s);;
  let* old := gets (fun s => hold_jobs s !! key) in
  modify (fun s => set_hold_jobs (delete key (hold_jobs s)) s);;
  (match old with Some id => after_cancel id | None => skip end);;
  let* id := after HOLD_SECONDS_MS (JHoldFire key) in
  modify (fun s => set_hold_jobs (<[key := id]> (hold_jobs s)) s).

Definition insect_hold_fire (key : string) : M unit :=
  let* p := gets pressed in
  if negb (bool_decide (p = Some ("insect", key))) then skip else
  modify (fun s => set_hold_fired (hold_fired s ∪ {[key]}) s);;
  play_slot_audio key false.

(* ---------- Quiz / Abort ---------- *)

Definition abort_quiz : M unit :=
  cancel_job answer_timeout_job set_answer_timeout_job;;
  cancel_job quiz_job set_quiz_job;;
  stop_flash;;
  audio_stop;;
  modify (set_input_locked false);;
  modify (set_quiz_active false);;
  modify (set_quiz_waiting false);;
  modify (set_q_index 0);;
  modify (set_score 0);;
  modify (set_quiz_options []);;
  modify (set_quiz_sequence []);;
  modify (set_pressed None);;
  status_set "Quiz: Aborted";;
  if fs QUIZ_ABORT_WAV then play_audio_locked QUIZ_ABORT_WAV (Some ADStatusReady)
  else status_set "Ready".

Definition on_abort_pressed : M unit :=
  let* active := gets quiz_active in
  if negb active then skip else abort_quiz.

(** [random.sample] and [random.shuffle] draw from [self.rng]. *)
Definition pick_4_options_m (correct_key : string) : M (list string) :=
  let* r := gets rng in
  match pick_4_options slot_keys correct_key r with
  | Some (picks, r') => modify (set_rng r');; mret picks
  | None => raise
  end.

(** [self.quiz_sequence[self.q_index]] *)
Definition current_key : M string :=
  let* seq := gets quiz_sequence in
  let* i := gets q_index in
  match seq !! i with Some k => mret k | None => raise end.

Definition play_question : M unit :=
  let* active := gets quiz_active in
  if negb active then skip else
  let* i := gets q_index in
  let idx := S i in
  let* correct_key := current_key in
  let* opts := pick_4_options_m correct_key in
  modify (set_quiz_options opts);;
  modify (set_quiz_waiting false);;
  let insect_wav := sound_wav correct_key in
  if negb (fs insect_wav) then
    status_set ("Missing: " ++ insect_wav)%string;;
    abort_quiz
  else
    status_set ("Quiz: Question " ++ pretty idx)%string;;
    play_audio_locked insect_wav (Some ADStartAnswerWindow).

Definition start_answer_window : M unit :=
  let* active := gets quiz_active in
  if negb active then skip else
  modify (set_quiz_waiting true);;
  status_set "Quiz: Choose an insect";;
  let* opts := gets quiz_options in
  flash_uniform opts "yellow" FLASH_INTERVAL_MS (ANSWER_SECONDS * 1000);;
  let* id := after (ANSWER_SECONDS * 1000) JTimeout in
  modify (set_answer_timeout_job (Some id)).

(** [first_existing_ci(SOUNDS_DIR, ...)] *)
Definition first_existing (names : list string) : option string :=
  List.find fs names.

Definition end_quiz : M unit :=
  modify (set_quiz_active false);;
  modify (set_quiz_waiting false);;
  end_flash;;
  modify (set_pressed None);;
  status_set "Quiz: Complete";;
  match first_existing QUIZ_COMPLETE_NAMES with
  | Some complete => play_audio_locked complete (Some ADStatusReady)
  | None => status_set "Ready"
  end.

Definition next_or_end : M unit :=
  let* active := gets quiz_active in
  if negb active then skip else
  modify (fun s => set_q_index (S (q_index s)) s);;
  let* i := gets q_index in
  let* seq := gets quiz_sequence in
  if bool_decide (length seq <= i) then end_quiz else play_question.

Definition feedback (correct : bool) : M unit :=
  let wav := if correct then CORRECT_WAV else INCORRECT_WAV in
  if negb (fs wav) then
    status_set ("Missing: " ++ wav)%string;;
    abort_quiz
  else
  status_set (if correct then "Quiz: Correct" else "Quiz: Not correct");;
  let* correct_key := current_key in
  let* opts := gets quiz_options in
  let color_map := dict_set correct_key "green" (map (fun k => (k, "red")) opts) in
  flash_multicolor color_map 250 RESULT_FLASH_MS;;
  play_audio_locked wav (Some ADFeedbackAfter).

Definition timeout : M unit :=
  modify (set_answer_timeout_job None);;
  let* waiting := gets quiz_waiting in
  let* active := gets quiz_active in
  if negb waiting || negb active then skip else
  modify (set_quiz_waiting false);;
  end_flash;;
  feedback false.

Definition handle_answer (key : string) : M unit :=
  let* waiting := gets quiz_waiting in
  let* active := gets quiz_active in
  if negb waiting || negb active then skip else
  let* locked := gets input_locked in
  if locked then skip else
  let* opts := gets quiz_options in
  if negb (bool_decide (key ∈ opts)) then skip else
  modify (set_quiz_waiting false);;
  cancel_job answer_timeout_job set_answer_timeout_job;;
  end_flash;;
  let* correct_key := current_key in
  let correct := String.eqb key correct_key in
  (if correct then modify (fun s => set_score (S (score s)) s) else skip);;
  feedback correct.

Definition on_insect_up (key : string) : M unit :=
  end_press "insect" key;;
  let* waiting := gets quiz_waiting in
  if waiting then handle_answer key else
  let* active := gets quiz_active in
  let* locked := gets input_locked in
  if active || locked then skip else
  let* job_ := gets (fun s => hold_jobs s !! key) in
  modify (fun s => set_hold_jobs (delete key (hold_jobs s)) s);;
  (match job_ with Some id => after_cancel id | None => skip end);;
  let* fired := gets (fun s => bool_decide (key ∈ hold_fired s)) in
  if fired then skip else
  play_slot_audio key true.

Definition start_quiz : M unit :=
  let eligible := filter (fun k => fs (sound_wav k) = true) slot_keys in
  if bool_decide (length eligible < 4) then
    status_set "Need at least 4 insect*_sound.wav files for the quiz.";;
    modify (set_pressed None)
  else if negb (fs CORRECT_WAV) || negb (fs INCORRECT_WAV) then
    status_set "Missing: correct.wav or incorrect.wav";;
    modify (set_pressed None)
  else
  let rounds := Nat.min QUIZ_ROUNDS (length eligible) in
  let* r := gets rng in
  match Random.sample eligible rounds r with
  | None => raise
  | Some (seq, r') =>
      modify (set_rng r');;
      modify (set_quiz_sequence seq);;
      modify (set_quiz_active true);;
      modify (set_quiz_waiting false);;
      modify (set_q_index 0);;
      modify (set_score 0);;
      modify (set_pressed None);;
      end_flash;;
      set_all "gray";;
      if fs QUIZ_READY_WAV then
        status_set "Quiz: Ready";;
        play_audio_locked QUIZ_READY_WAV (Some ADPlayQuestion)
      else play_question
  end.

Definition on_quiz_down : M unit :=
  let* active := gets quiz_active in
  if active then skip else
  let* ok := begin_press "quiz" "quiz" in
  if negb ok then skip else
  modify (set_quiz_hold_fired false);;
  cancel_job quiz_job set_quiz_job;;
  status_set "Quiz: holding...";;
  let* id := after HOLD_SECONDS_MS JStartQuizHoldFire in
  modify (set_quiz_job (Some id)).

Definition on_quiz_up : M unit :=
  end_press "quiz" "quiz";;
  cancel_job quiz_job set_quiz_job;;
  let* active := gets quiz_active in
  let* locked := gets input_locked in
  let* fired := gets quiz_hold_fired in
  if active || locked || fired then skip else
  if fs QUIZ_WELCOME_WAV then
    status_set "Quiz: Welcome";;
    play_audio_locked QUIZ_WELCOME_WAV (Some ADStatusReady)
  else status_set "Ready".

Definition start_quiz_hold_fire : M unit :=
  modify (set_quiz_hold_fired true);;
  modify (set_quiz_job None);;
  let* p := gets pressed in
  if negb (bool_decide (p = Some ("quiz", "quiz"))) then skip else
  start_quiz.

(* ---------- Callbacks run by the Tk event loop ---------- *)

Definition run_after_done (ad : after_done) : M unit :=
  match ad with
  | ADStatusReady => status_set "Ready"
  | ADPlayQuestion => play_question
  | ADStartAnswerWindow => start_answer_window
  | ADSlotAfter key => set_color key "gray";; status_set "Ready"
  | ADFeedbackAfter => end_flash;; next_or_end
  end.

Definition run_job (j : job) : M unit :=
  match j with
  | JHoldFire key => insect_hold_fire key
  | JStartQuizHoldFire => start_quiz_hold_fire
  | JFlashUniformTick color interval_ms => flash_uniform_tick color interval_ms
  | JFlashMultiTick interval_ms => flash_multi_tick interval_ms
  | JEndFlash => end_flash
  | JTimeout => timeout
  | JOnUI ad =>
      unlock_inputs;;
      match ad with Some a => run_after_done a | None => skip end
  | JAfterDone ad => run_after_done ad
  end.

(** Button events, bound in [build_ui]. *)
Inductive input :=
| InsectDown (key : string)
| InsectUp (key : string)
| QuizDown
| QuizUp
| AbortPressed.

Definition handle_input (i : input) : M unit :=
  match i with
  | InsectDown k => on_insect_down k
  | InsectUp k => on_insect_up k
  | QuizDown => on_quiz_down
  | QuizUp => on_quiz_up
  | AbortPressed => on_abort_pressed
  end.

(** [done_on_audio_thread()]: the audio thread posts [on_ui] with
    [root.after(0, on_ui)]. *)
Definition audio_thread_done (t : nat) : M unit :=
  let* a := gets audio in
  let '(a', r) := Audio.finish t a in
  modify (set_audio a');;
  match r with
  | Some ad => let* _ := after 0 (JOnUI ad) in skip
  | None => skip
  end.

(** The earliest pending [after] job: smallest due time, then smallest id. *)
Definition earliest (ts : list (nat * nat * job)) : option (nat * nat * job) :=
  foldr (fun x acc =>
           match acc with
           | None => Some x
           | Some y => if bool_decide (x.1.2 <= y.1.2) then Some x else Some y
           end) None ts.

(** One turn of [root.mainloop()]: fire the earliest job (the clock
    jumps to its due time), dispatch a button event, or receive the end of
    an audio thread.  An exception ends the callback, not the loop. *)
Inductive loop_event :=
| LFire
| LInput (i : input)
| LAudioDone (t : nat).

Definition loop_step (e : loop_event) (s : ctrl) : ctrl :=
  match e with
  | LFire =>
      match earliest (timers s) with
      | None => s
      | Some (id, due, j) =>
          let s1 := set_now (Nat.max (now s) due)
                      (set_timers (filter (fun x => x.1.1 <> id) (timers s)) s) in
          (run_job j s1).2
      end
  | LInput i => (handle_input i s).2
  | LAudioDone t => (audio_thread_done t s).2
  end.

Fixpoint loop_run (es : list loop_event) (s : ctrl) : ctrl :=
  match es with
  | [] => s
  | e :: es' => loop_run es' (loop_step e s)
  end.

End Methods.

(** The ids of the quiz's pending [after] jobs: answer timeout, quiz
    hold, flash tick and flash end. *)
Definition quiz_timer_ids (s : ctrl) : list nat :=
  option_list (answer_timeout_job s) ++ option_list (quiz_job s) ++
  option_list (flash_job s) ++ option_list (flash_end_job s).


(* ------------------------------------------------------------------ *)
(** ** [_apply_ui_state]: the Tk state of the buttons

    [_apply_ui_state] only reads the fields above; it is run after every
    assignment that can change its result, so the buttons always show
    the state computed here from the current fields. *)

Inductive btn_state := NORMAL | DISABLED.

(** [is_pressed(btn_type, key)]: [pressed_type == btn_type and
    pressed_key == (key or "")]; both are [None] when nothing is pressed. *)
Definition is_pressed (s : ctrl) (btn_type key : string) : bool :=
  match pressed s with
  | Some (t, k) => String.eqb t btn_type && String.eqb k key
  | None => false
  end.

(** The state given to the insect button of [k]. *)
Definition insect_button_state (s : ctrl) (k : string) : btn_state :=
  let allowed_insects := if quiz_waiting s then quiz_options s else slot_keys in
  if input_locked s then (if is_pressed s "insect" k then NORMAL else DISABLED)
  else if quiz_active s && negb (quiz_waiting s) then DISABLED
  else if quiz_waiting s then (if bool_decide (k ∈ allowed_insects) then NORMAL else DISABLED)
  else NORMAL.

Definition quiz_button_state (s : ctrl) : btn_state :=
  if input_locked s then (if is_pressed s "quiz" "quiz" then NORMAL else DISABLED)
  else if negb (quiz_active s) then NORMAL else DISABLED.

Definition abort_button_state (s : ctrl) : btn_state :=
  if quiz_active s then NORMAL else DISABLED.

(** The buttons registered by [build_ui]: one insect button per slot, in
    slot order, then the quiz and abort buttons. *)
Record ui_state := mkUi {
  insect_states : list (string * btn_state);
  quiz_state : btn_state;
  abort_state : btn_state
}.

Definition apply_ui_state (s : ctrl) : ui_state :=
  mkUi (map (fun k => (k, insect_button_state s k)) slot_keys)
    (quiz_button_state s) (abort_button_state s).

(* ------------------------------------------------------------------ *)
(** ** [load_and_scale_photo] *)

Definition MAX_IMG_W : Z := 220.
Definition MAX_IMG_H : Z := 180.

(** A [PhotoImage] as returned: the size of the loaded image and the
    factor of the [subsample(s, s)] applied to it (1: none). *)
Record photo := mkPhoto { ph_width : Z; ph_height : Z; ph_subsample : Z }.

(** [exists_] is [path.exists()]; [loaded] is the size of the image
    [tk.PhotoImage(file=...)] loads, [None] when it raises. *)
Definition load_and_scale_photo (exists_ : bool) (loaded : option (Z * Z)) : option photo :=
  if negb exists_ then None else
  match loaded with
  | None => None
  | Some (w, h) =>
      if (w <=? 0)%Z || (h <=? 0)%Z then Some (mkPhoto w h 1) else
      let sx := Z.max 1 ((w + MAX_IMG_W - 1) / MAX_IMG_W) in
      let sy := Z.max 1 ((h + MAX_IMG_H - 1) / MAX_IMG_H) in
      let s := Z.max sx sy in
      if (1 <? s)%Z then Some (mkPhoto w h s) else Some (mkPhoto w h 1)
  end.

(* ------------------------------------------------------------------ *)
(** ** [find_ci] and [first_existing_ci]

    A directory is the list [entries] that [iterdir()] yields, each name
    with [is_file()]; an absent directory yields nothing.  [exists_] is
    [Path.exists()] on a name in the directory and [lower] is [str.lower]. *)

Section FindCi.
Variable lower : string -> string.
Variable exists_ : string -> bool.
Variable entries : list (string * bool).

Definition find_ci (filename : string) : string :=
  if exists_ filename then filename else
  let target := lower filename in
  match List.find (fun '(p, is_file) => is_file && String.eqb (lower p) target) entries with
  | Some (p, _) => p
  | None => filename
  end.

Definition first_existing_ci (filenames : list string) : option string :=
  List.find exists_ (map find_ci filenames).

End FindCi.

(** [str.lower] on ASCII text. *)
Definition ascii_lower (c : Ascii.ascii) : Ascii.ascii :=
  let n := Ascii.nat_of_ascii c in
  if Nat.leb 65 n && Nat.leb n 90 then Ascii.ascii_of_nat (n + 32) else c.

Fixpoint str_lower (s : string) : string :=
  match s with
  | EmptyString => EmptyString
  | String c s' => String (ascii_lower c) (str_lower s')
  end.

(* ------------------------------------------------------------------ *)
(** ** A sample session

    Every sound file present; [random] draws taken from a fixed list. *)

Definition all_files : string -> bool := fun _ => true.

Definition demo_rng : list nat :=
  [0;1;2;3;4;5;6;7;8;9; 0;1;2;3;4;5;6;7;8;9; 0;1;2;3;4;5;6;7;8;9].

(** The quiz button held for 2 s: the quiz starts and plays [quiz_ready.wav]. *)
Definition demo_ready : ctrl :=
  loop_run all_files [LInput QuizDown; LFire] (initial_ctrl demo_rng).

(** [quiz_ready.wav] has ended: the first question's clip is playing. *)
Definition demo_question : ctrl :=
  loop_run all_files [LAudioDone 2; LFire] demo_ready.

(** The question clip has ended: the answer window is open. *)
Definition demo_answer_window : ctrl :=
  loop_run all_files [LAudioDone 4; LFire] demo_question.

(** A slot key pressed and released. *)
Definition demo_answer (key : string) : list loop_event :=
  [LInput (InsectDown key); LInput (InsectUp key)].

(** The right answer to the first question: the feedback flash and
    [correct.wav] start at 2000 ms; the flash is to end at 5000 ms. *)
Definition demo_feedback : ctrl :=
  loop_run all_files (demo_answer "insect1") demo_answer_window.


(** The five rounds answered right, up to [quiz_complete.wav]. *)
Definition demo_complete : ctrl :=
  loop_run all_files
    ([LAudioDone 6; LFire; LAudioDone 8; LFire] ++
     demo_answer "insect2" ++ [LAudioDone 10; LFire; LAudioDone 12; LFire] ++
     demo_answer "insect3" ++ [LAudioDone 14; LFire; LAudioDone 16; LFire] ++
     demo_answer "insect4" ++ [LAudioDone 18; LFire; LAudioDone 20; LFire] ++
     demo_answer "insect8" ++ [LAudioDone 22; LFire])
    demo_feedback.

(* ================================================================== *)
(** * Properties *)

Lemma randbelow_lt (rng : list nat) (n : nat) :
  0 < n -> (Random.randbelow rng n).1 < n.
Proof. intros Hn. destruct rng; simpl; [lia | apply Nat.mod_upper_bound; lia]. Qed.

(** Overwriting the element [x] at index [i] by [y] swaps one copy of [x]
    for one copy of [y]. *)
Lemma insert_replace_perm (l : list string) (i : nat) (x y : string) :
  l !! i = Some x -> x :: <[i:=y]> l ≡ₚ y :: l.
Proof.
  intros Hi.
  assert (i < length l) by (apply lookup_lt_is_Some; eauto).
  pose proof (take_drop_middle l i x Hi) as Hl.
  rewrite (insert_take_drop l i y) by done.
  set (T := take i l) in *. set (D := drop (S i) l) in *. clearbody T D.
  rewrite <- Hl. rewrite <- !Permutation_middle. apply perm_swap.
Qed.

Lemma swap_perm (x : list string) (i j : nat) :
  i < length x -> j < length x -> Random.swap x i j ≡ₚ x.
Proof.
  intros Hi Hj. unfold Random.swap.
  destruct (lookup_lt_is_Some_2 x i Hi) as [xi Hxi].
  destruct (lookup_lt_is_Some_2 x j Hj) as [xj Hxj].
  rewrite (list_lookup_total_correct _ _ _ Hxi), (list_lookup_total_correct _ _ _ Hxj).
  assert (Hl1 : <[i:=xj]> x !! j = Some xj).
  { destruct (decide (i = j)) as [->|Hne].
    - by rewrite list_lookup_insert_eq.
    - by rewrite list_lookup_insert_ne. }
  apply (Permutation_cons_inv (a:=xj)).
  etrans; [apply (insert_replace_perm _ _ _ _ Hl1)|].
  apply (insert_replace_perm _ _ _ _ Hxi).
Qed.

Lemma length_swap (x : list string) (i j : nat) :
  length (Random.swap x i j) = length x.
Proof. unfold Random.swap. by rewrite !length_insert. Qed.

Lemma shuffle_loop_perm (i : nat) (x : list string) (rng : list nat) :
  i < length x -> (Random.shuffle_loop i x rng).1 ≡ₚ x.
Proof.
  revert x rng. induction i as [|i IH]; intros x rng Hi; simpl; [done|].
  destruct (Random.randbelow rng (S (S i))) as [j rng1] eqn:Hr.
  pose proof (randbelow_lt rng (S (S i)) ltac:(lia)) as Hj. rewrite Hr in Hj. simpl in Hj.
  etrans; [apply IH; rewrite length_swap; lia|].
  apply swap_perm; lia.
Qed.

Lemma shuffle_perm (x : list string) (rng : list nat) :
  (Random.shuffle x rng).1 ≡ₚ x.
Proof.
  unfold Random.shuffle. destruct x as [|a x]; [done|].
  apply shuffle_loop_perm. simpl. lia.
Qed.

(** One step of the pool loop: the picked element together with the new
    unpicked prefix is the old unpicked prefix. *)
Lemma take_pick_perm (pool : list string) (m j : nat) (x y : string) :
  j < m -> pool !! j = Some x -> pool !! (m - 1) = Some y ->
  x :: take (m - 1) (<[j:=y]> pool) ≡ₚ take m pool.
Proof.
  intros Hjm Hx Hy.
  replace m with (S (m - 1)) at 2 by lia.
  rewrite (take_S_r _ _ _ Hy).
  destruct (decide (j = m - 1)) as [->|Hne].
  - rewrite take_insert_ge by lia.
    assert (x = y) as -> by congruence. apply Permutation_cons_append.
  - rewrite take_insert_lt by lia.
    etrans; [apply (insert_replace_perm _ _ x)|].
    + rewrite lookup_take. rewrite decide_True by lia. done.
    + apply Permutation_cons_append.
Qed.

Lemma sample_loop_sub (k : nat) (pool : list string) (m : nat) (rng : list nat) :
  k <= m -> m <= length pool ->
  length (Random.sample_loop pool m k rng).1 = k /\
  exists rest, (Random.sample_loop pool m k rng).1 ++ rest ≡ₚ take m pool.
Proof.
  revert pool m rng. induction k as [|k IH]; intros pool m rng Hk Hm; simpl.
  { split; [done|]. by exists (take m pool). }
  destruct (Random.randbelow rng m) as [j rng1] eqn:Hr.
  pose proof (randbelow_lt rng m ltac:(lia)) as Hj. rewrite Hr in Hj. simpl in Hj.
  destruct (lookup_lt_is_Some_2 pool j ltac:(lia)) as [x Hx].
  destruct (lookup_lt_is_Some_2 pool (m - 1) ltac:(lia)) as [y Hy].
  rewrite (list_lookup_total_correct _ _ _ Hy).
  destruct (IH (<[j:=y]> pool) (m - 1) rng1) as [Hlen [rest Hrest]];
    [lia | rewrite length_insert; lia |].
  destruct (Random.sample_loop (<[j:=y]> pool) (m - 1) k rng1) as [r rng2].
  simpl in *. split; [lia|]. exists rest.
  rewrite (list_lookup_total_correct _ _ _ Hx).
  simpl. rewrite Hrest. by apply take_pick_perm.
Qed.

Lemma sample_spec (population : list string) (k : nat) (rng : list nat) :
  k <= length population -> NoDup population ->
  exists r rng', Random.sample population k rng = Some (r, rng') /\
    length r = k /\ NoDup r /\ (forall z, z ∈ r -> z ∈ population).
Proof.
  intros Hk Hnd. unfold Random.sample. rewrite decide_True by done.
  destruct (sample_loop_sub k population (length population) rng) as [Hlen [rest Hp]];
    [done | done |].
  rewrite take_ge in Hp by done.
  destruct (Random.sample_loop population (length population) k rng) as [r rng'].
  simpl in *. exists r, rng'. split; [done|]. split; [done|].
  rewrite <- Hp in Hnd. apply NoDup_app in Hnd as (Hr & _ & _).
  split; [done|]. intros z Hz. rewrite <- Hp. apply elem_of_app. by left.
Qed.

Example pick_4_options_run :
  pick_4_options slot_keys "insect3" [5; 0; 2; 1; 2; 0]
  = Some (["insect3"; "insect7"; "insect4"; "insect1"], []).
Proof. vm_compute. reflexivity. Qed.

Lemma slot_keys_NoDup : NoDup slot_keys.
Proof. unfold slot_keys, INSECT_KEYS. repeat constructor; set_solver. Qed.

Lemma others_of_length (correct_key : string) :
  correct_key ∈ slot_keys -> length (others_of slot_keys correct_key) = 7.
Proof.
  unfold slot_keys, INSECT_KEYS. intros H.
  repeat (apply elem_of_cons in H as [->|H]; [reflexivity|]).
  by apply elem_of_nil in H.
Qed.

(** C1: for a correct key taken from the slots, [_pick_4_options] returns
    exactly four distinct keys: the correct key and three distinct keys
    sampled from the seven other slot keys, in shuffled order. *)
Theorem pick_4_options_four_distinct (correct_key : string) (rng : list nat) :
  correct_key ∈ slot_keys ->
  exists opts rng',
    pick_4_options slot_keys correct_key rng = Some (opts, rng') /\
    length opts = 4 /\ NoDup opts /\ correct_key ∈ opts /\
    length (others_of slot_keys correct_key) = 7 /\
    exists picks,
      opts ≡ₚ picks ++ [correct_key] /\ NoDup picks /\ length picks = 3 /\
      (forall k, k ∈ picks -> k ∈ others_of slot_keys correct_key).
Proof.
  intros Hin.
  pose proof (others_of_length correct_key Hin) as H7.
  assert (Hnd : NoDup (others_of slot_keys correct_key))
    by (apply NoDup_filter, slot_keys_NoDup).
  destruct (sample_spec (others_of slot_keys correct_key) 3 rng)
    as (picks & rng1 & Hs & Hlen & Hpnd & Hsub); [lia | done |].
  unfold pick_4_options. rewrite Hs.
  pose proof (shuffle_perm (picks ++ [correct_key]) rng1) as Hp.
  destruct (Random.shuffle (picks ++ [correct_key]) rng1) as [opts rng'].
  simpl in Hp. exists opts, rng'. split; [done|].
  assert (Hnc : correct_key ∉ picks).
  { intros Hc. apply Hsub in Hc. unfold others_of in Hc.
    apply list_elem_of_filter in Hc as [Hc _]. done. }
  split; [rewrite Hp, length_app; simpl; lia|].
  split; [rewrite Hp; apply NoDup_app; split; [done|]; split;
          [intros z Hz Hz'; apply list_elem_of_singleton in Hz'; subst; done
          | apply NoDup_singleton]|].
  split; [rewrite Hp; apply elem_of_app; right; by apply list_elem_of_singleton|].
  split; [done|].
  exists picks. done.
Qed.

Lemma pick_4_options_four_distinct_witness :
  "insect3" ∈ slot_keys /\
  exists opts rng',
    pick_4_options slot_keys "insect3" [5; 0; 2; 1; 2; 0] = Some (opts, rng') /\
    length opts = 4 /\ NoDup opts /\ "insect3" ∈ opts /\
    length (others_of slot_keys "insect3") = 7 /\
    exists picks,
      opts ≡ₚ picks ++ ["insect3"] /\ NoDup picks /\ length picks = 3 /\
      (forall k, k ∈ picks -> k ∈ others_of slot_keys "insect3").
Proof.
  assert (H : "insect3" ∈ slot_keys) by (unfold slot_keys, INSECT_KEYS; set_solver).
  split; [exact H | exact (pick_4_options_four_distinct "insect3" _ H)].
Defined.

(* ------------------------------------------------------------------ *)
(** ** The audio player: tokens and completion callbacks *)

Section AudioProps.
Context {Cb : Type} `{EqDecision Cb}.
Import Audio.

Local Abbreviation thread := (nat * string * option Cb)%type.

(** Every running thread has a distinct token, none above [self._token]. *)
Definition wf (s : player Cb) : Prop :=
  NoDup ((fun th : thread => th.1.1) <$> threads s) /\
  Forall (fun th : thread => th.1.1 <= token s) (threads s).

(** No running thread carries the callback [c]. *)
Definition absent (c : Cb) (s : player Cb) : Prop :=
  Forall (fun th : thread => th.2 <> Some c) (threads s).

(** The callback [c] is carried by the thread with token [t], and by no
    other thread. *)
Definition owned (c : Cb) (t : nat) (s : player Cb) : Prop :=
  (exists w, (t, w, Some c) ∈ threads s) /\
  Forall (fun th : thread => th.2 = Some c -> th.1.1 = t) (threads s).

Lemma run_app (s : player Cb) (l1 l2 : list (event Cb)) :
  run s (l1 ++ l2) =
  let '(s1, o1) := run s l1 in let '(s2, o2) := run s1 l2 in (s2, o1 ++ o2).
Proof.
  revert s. induction l1 as [|e l1 IH]; intros s; simpl.
  - by destruct (run s l2).
  - destruct (step s e) as [s1 o1]. rewrite IH.
    destruct (run s1 l1) as [s2 o2]. destruct (run s2 l2). by rewrite app_assoc.
Qed.

Lemma take_thread_sublist (t : nat) (l l' : list thread) r :
  take_thread t l = (r, l') -> l' `sublist_of` l.
Proof.
  revert l'. induction l as [|[[t' w] cb] l IH]; intros l' Ht; simpl in Ht.
  - by inversion Ht.
  - destruct (Nat.eqb t' t).
    + inversion Ht; subst. by apply sublist_cons.
    + destruct (take_thread t l) as [r0 l0]. inversion Ht; subst.
      apply sublist_skip. by apply (IH _ eq_refl).
Qed.

Lemma take_thread_found (t : nat) (l l' : list thread) cb :
  take_thread t l = (Some cb, l') -> exists w, (t, w, cb) ∈ l.
Proof.
  revert l'. induction l as [|[[t' w] cb'] l IH]; intros l' Ht; simpl in Ht.
  - done.
  - destruct (Nat.eqb t' t) eqn:E.
    + apply Nat.eqb_eq in E. inversion Ht; subst. exists w. by left.
    + destruct (take_thread t l) as [r0 l0] eqn:E2. inversion Ht; subst.
      destruct (IH l0 eq_refl) as [w' Hw']. exists w'. by right.
Qed.

Lemma take_thread_keeps (t : nat) (l l' : list thread) r (x : thread) :
  take_thread t l = (r, l') -> x ∈ l -> x.1.1 <> t -> x ∈ l'.
Proof.
  revert l'. induction l as [|[[t' w] cb'] l IH]; intros l' Ht Hx Hne; simpl in Ht.
  - by apply elem_of_nil in Hx.
  - apply elem_of_cons in Hx as [->|Hx].
    + simpl in Hne. destruct (Nat.eqb t' t) eqn:E; [apply Nat.eqb_eq in E; done|].
      destruct (take_thread t l). inversion Ht; subst. by left.
    + destruct (Nat.eqb t' t); [by inversion Ht; subst|].
      destruct (take_thread t l) as [r0 l0]. inversion Ht; subst.
      right. by apply (IH l0 eq_refl).
Qed.

Lemma take_thread_unique (t : nat) (l : list thread) (w : string) (cb : option Cb) :
  NoDup ((fun th : thread => th.1.1) <$> l) -> (t, w, cb) ∈ l ->
  exists l', take_thread t l = (Some cb, l') /\
    Forall (fun th : thread => th.1.1 <> t) l'.
Proof.
  induction l as [|[[t' w'] cb'] l IH]; intros Hnd Hin; simpl in *.
  - by apply elem_of_nil in Hin.
  - apply NoDup_cons in Hnd as [Hnotin Hnd].
    destruct (Nat.eqb t' t) eqn:E.
    + apply Nat.eqb_eq in E. subst t'.
      apply elem_of_cons in Hin as [Heq|Hin].
      * inversion Heq; subst. exists l. split; [done|].
        apply Forall_forall. intros x Hx Hxt. apply Hnotin.
        rewrite <- Hxt. apply list_elem_of_fmap. by exists x.
      * exfalso. apply Hnotin. apply list_elem_of_fmap. by exists (t, w, cb).
    + apply Nat.eqb_neq in E.
      apply elem_of_cons in Hin as [Heq|Hin]; [inversion Heq; subst; done|].
      destruct (IH Hnd Hin) as [l0 [Hl0 Hf]]. rewrite Hl0.
      exists ((t', w', cb') :: l0). split; [done|]. by constructor.
Qed.

Lemma NoDup_sublist_of {A : Type} (l1 l2 : list A) :
  l1 `sublist_of` l2 -> NoDup l2 -> NoDup l1.
Proof.
  induction 1 as [|x l1 l2 Hs IH|x l1 l2 Hs IH]; intros Hnd; [constructor| |].
  - apply NoDup_cons in Hnd as [Hx Hnd]. constructor; [|auto].
    intros Hin. apply Hx. eapply elem_of_sublist; eauto.
  - apply NoDup_cons in Hnd as [_ Hnd]. auto.
Qed.

Lemma Forall_sublist_of {A : Type} (P : A -> Prop) (l1 l2 : list A) :
  l1 `sublist_of` l2 -> Forall P l2 -> Forall P l1.
Proof.
  rewrite !Forall_forall. intros Hs H x Hx. apply H. eapply elem_of_sublist; eauto.
Qed.

Lemma wf_init : wf (init (Cb:=Cb)).
Proof. split; constructor. Qed.

Lemma step_token_mono (s : player Cb) (e : event Cb) :
  token s <= token (step s e).1.
Proof.
  destruct e as [[] w cb| |t]; simpl; unfold play, INTERRUPT_AUDIO; simpl; try lia.
  unfold finish. destruct (take_thread t (threads s)) as [[[cb|]|] l']; simpl;
    try destruct (negb _ && _); simpl; lia.
Qed.

Lemma step_wf (s : player Cb) (e : event Cb) : wf s -> wf (step s e).1.
Proof.
  intros [Hnd Hle]. destruct e as [[] w cb| |t]; simpl; unfold play, INTERRUPT_AUDIO; simpl.
  - split; simpl; rewrite ?fmap_app.
    + apply NoDup_app. split; [done|]. split; [|apply NoDup_singleton].
      intros x Hx Hx'. apply list_elem_of_singleton in Hx'. subst.
      apply list_elem_of_fmap in Hx as [th [Heq Hth]].
      rewrite Forall_forall in Hle. specialize (Hle th Hth). simpl in *. lia.
    + apply Forall_app. split; [|constructor; simpl; [lia | constructor]].
      eapply Forall_impl; [exact Hle|]. simpl. lia.
  - done.
  - split; [done|]. eapply Forall_impl; [exact Hle|]. simpl. lia.
  - unfold finish. destruct (take_thread t (threads s)) as [r l'] eqn:Ht.
    pose proof (take_thread_sublist _ _ _ _ Ht) as Hsub.
    assert (wf (mkPlayer (token s) (stop_event s) l')).
    { split; simpl.
      - eapply NoDup_sublist_of; [|exact Hnd]. by apply fmap_sublist.
      - eapply Forall_sublist_of; [exact Hsub|exact Hle]. }
    destruct r as [[cb|]|]; simpl; try destruct (negb _ && _); done.
Qed.

Lemma wf_run (s : player Cb) (l : list (event Cb)) : wf s -> wf (run s l).1.
Proof.
  revert s. induction l as [|e l IH]; intros s Hs; simpl; [done|].
  pose proof (step_wf s e Hs) as Hs1.
  destruct (step s e) as [s1 o1]. specialize (IH s1 Hs1).
  destruct (run s1 l). done.
Qed.

Lemma count_cb_absent (c : Cb) (o : list Cb) : c ∉ o -> count_cb c o = 0.
Proof.
  unfold count_cb. induction o as [|x o IH]; intros Hc; simpl; [done|].
  rewrite filter_cons. rewrite decide_False; [apply IH; set_solver|]. set_solver.
Qed.

(** A callback never handed to [play] is never invoked. *)
Lemma run_absent (c : Cb) (s : player Cb) (l : list (event Cb)) :
  absent c s -> Forall (not_play_of c) l ->
  absent c (run s l).1 /\ c ∉ (run s l).2.
Proof.
  revert s. induction l as [|e l IH]; intros s Hs Hl; simpl; [split; [done|set_solver]|].
  apply Forall_cons in Hl as [He Hl].
  assert (Hst : absent c (step s e).1 /\ c ∉ (step s e).2).
  { destruct e as [[] w cb| |t]; simpl; unfold play, INTERRUPT_AUDIO; simpl.
    - split; [|set_solver]. unfold absent; simpl. apply Forall_app. split; [done|].
      constructor; [|constructor]. simpl. destruct cb; simpl in *; congruence.
    - split; [done|set_solver].
    - split; [done|set_solver].
    - unfold finish. destruct (take_thread t (threads s)) as [r l'] eqn:Ht.
      pose proof (take_thread_sublist _ _ _ _ Ht) as Hsub.
      assert (Hab : absent c (mkPlayer (token s) (stop_event s) l'))
        by (eapply Forall_sublist_of; [exact Hsub | exact Hs]).
      destruct r as [[cb|]|]; simpl; [|split; [done|set_solver]..].
      destruct (take_thread_found _ _ _ _ Ht) as [w Hw].
      unfold absent in Hs. rewrite Forall_forall in Hs. specialize (Hs _ Hw). simpl in Hs.
      destruct (negb _ && _); simpl; (split; [done|]); [|set_solver].
      apply not_elem_of_cons. split; [congruence|set_solver]. }
  destruct (step s e) as [s1 o1]. destruct Hst as [Hs1 Ho1]. simpl in *.
  destruct (IH s1 Hs1 Hl) as [IH1 IH2].
  destruct (run s1 l) as [s2 o2]. simpl in *. split; [done|set_solver].
Qed.

Lemma run_cons (s : player Cb) (e : event Cb) (l : list (event Cb)) :
  run s (e :: l) =
  let '(s1, o1) := step s e in let '(s2, o2) := run s1 l in (s2, o1 ++ o2).
Proof. reflexivity. Qed.

Lemma run_token_mono (s : player Cb) (l : list (event Cb)) :
  token s <= token (run s l).1.
Proof.
  revert s. induction l as [|e l IH]; intros s; simpl; [done|].
  pose proof (step_token_mono s e) as H1.
  destruct (step s e) as [s1 o1]. specialize (IH s1).
  destruct (run s1 l). simpl in *. lia.
Qed.

(** While the playback with token [t] runs, a call other than its own end
    keeps [c] owned by it and does not invoke [c]; the token moves iff the
    call stops or supersedes the playback. *)
Lemma step_owned (c : Cb) (t : nat) (s : player Cb) (e : event Cb) :
  wf s -> owned c t s -> not_play_of c e -> e <> EFinish t ->
  owned c t (step s e).1 /\ (c ∉ (step s e).2) /\
  (interrupts e = false ->
     token (step s e).1 = token s /\ stop_event (step s e).1 = stop_event s) /\
  (interrupts e = true -> token s < token (step s e).1).
Proof.
  intros Hwf [[w Hw] Hown] He Hne.
  destruct e as [[] w' cb| |t']; simpl; unfold play, INTERRUPT_AUDIO; simpl.
  - split; [|split; [set_solver|split; [discriminate|lia]]].
    split; [exists w; apply elem_of_app; by left|].
    apply Forall_app. split; [done|]. constructor; [|constructor].
    simpl. intros Hcb. destruct cb; simpl in He; congruence.
  - split; [by split; [exists w|]|]. split; [set_solver|]. split; [done|discriminate].
  - split; [by split; [exists w|]|]. split; [set_solver|]. split; [discriminate|lia].
  - assert (t' <> t) by congruence.
    unfold finish. destruct (take_thread t' (threads s)) as [r l'] eqn:Ht.
    pose proof (take_thread_sublist _ _ _ _ Ht) as Hsub.
    assert (Hown' : owned c t (mkPlayer (token s) (stop_event s) l')).
    { split; simpl.
      - exists w. eapply take_thread_keeps; [exact Ht | exact Hw | simpl; done].
      - eapply Forall_sublist_of; [exact Hsub | exact Hown]. }
    destruct r as [[cb|]|]; simpl;
      [|split; [done|split; [set_solver|split; [done|discriminate]]]
       |split; [by split; [exists w|]|split; [set_solver|split; [done|discriminate]]]].
    destruct (take_thread_found _ _ _ _ Ht) as [w0 Hw0].
    rewrite Forall_forall in Hown. specialize (Hown _ Hw0). simpl in Hown.
    destruct (negb _ && _); simpl;
      (split; [done|split; [|split; [done|discriminate]]]); [|set_solver].
    apply not_elem_of_cons. split; [|set_solver]. intros ->. auto.
Qed.

Lemma run_owned (c : Cb) (t : nat) (l : list (event Cb)) (s : player Cb) :
  wf s -> owned c t s ->
  Forall (not_play_of c) l -> EFinish t ∉ l ->
  owned c t (run s l).1 /\ (c ∉ (run s l).2) /\
  (existsb interrupts l = false ->
     token (run s l).1 = token s /\ stop_event (run s l).1 = stop_event s) /\
  (existsb interrupts l = true -> token s < token (run s l).1).
Proof.
  revert s. induction l as [|e l IH]; intros s Hwf Hown Hl Hnf; simpl.
  { split; [done|]. split; [set_solver|]. split; [done|discriminate]. }
  apply Forall_cons in Hl as [He Hl].
  apply not_elem_of_cons in Hnf as [Hne Hnf].
  pose proof (step_wf s e Hwf) as Hwf1.
  pose proof (step_token_mono s e) as Hmono.
  destruct (step_owned c t s e Hwf Hown He (not_eq_sym Hne)) as (Hown1 & Hc1 & Hf1 & Ht1).
  destruct (step s e) as [s1 o1]. simpl in *.
  destruct (IH s1 Hwf1 Hown1 Hl Hnf) as (Hown2 & Hc2 & Hf2 & Ht2).
  pose proof (run_token_mono s1 l) as Hmono2.
  destruct (run s1 l) as [s2 o2]. simpl in *.
  split; [done|]. split; [set_solver|]. split.
  - intros Hb. apply orb_false_iff in Hb as [Hb1 Hb2].
    destruct (Hf1 Hb1), (Hf2 Hb2). split; congruence.
  - intros Hb. apply orb_true_iff in Hb as [Hb|Hb].
    + specialize (Ht1 Hb). lia.
    + specialize (Ht2 Hb). lia.
Qed.

(** The end of the playback that owns [c] invokes [c] iff nothing stopped
    or superseded it, and leaves no thread carrying [c]. *)
Lemma finish_owned (c : Cb) (t : nat) (s : player Cb) :
  wf s -> owned c t s ->
  absent c (step s (EFinish t)).1 /\
  (step s (EFinish t)).2 =
    (if negb (stop_event s) && Nat.eqb t (token s) then [c] else []).
Proof.
  intros [Hnd Hle] [[w Hw] Hown]. simpl. unfold finish.
  destruct (take_thread_unique t (threads s) w (Some c) Hnd Hw) as [l' [Ht Hl']].
  rewrite Ht.
  pose proof (take_thread_sublist _ _ _ _ Ht) as Hsub.
  assert (Hab : absent c (mkPlayer (token s) (stop_event s) l')).
  { unfold absent. simpl. apply Forall_forall. intros th Hth Hc.
    rewrite Forall_forall in Hown, Hl'.
    apply (Hl' th Hth). apply Hown; [eapply elem_of_sublist; eauto | done]. }
  destruct (negb _ && _); simpl; by split.
Qed.

Lemma count_cb_app (c : Cb) (o1 o2 : list Cb) :
  count_cb c (o1 ++ o2) = count_cb c o1 + count_cb c o2.
Proof. unfold count_cb. by rewrite filter_app, length_app. Qed.

(** C7: a [play(wav, c)] call gets a token above every earlier one, and its
    callback [c] is invoked exactly once when that playback ends if nothing
    ([stop] or a later [play]) stopped or superseded it in between, and
    never otherwise: not at the end of that playback, and not afterwards. *)
Theorem play_on_done_exactly_once (pre mid post : list (event Cb))
    (wav : string) (c : Cb) (s0 s1 : player Cb) :
  s0 = (run init pre).1 ->
  s1 = play true wav (Some c) s0 ->
  Forall (not_play_of c) (pre ++ mid ++ post) ->
  EFinish (token s1) ∉ mid ->
  token s0 < token s1 /\
  count_cb c
    (run init (pre ++ EPlay true wav (Some c) :: mid ++ EFinish (token s1) :: post)).2
  = (if existsb interrupts mid then 0 else 1).
Proof.
  intros Hs0 Hs1 Hfresh Hnf.
  apply Forall_app in Hfresh as [Hpre Hfresh].
  apply Forall_app in Hfresh as [Hmid Hpost].
  assert (Hab0 : absent c (init (Cb:=Cb))) by constructor.
  destruct (run_absent c init pre Hab0 Hpre) as [Habs0 Hc0].
  pose proof (wf_run init pre wf_init) as Hwf0.
  rewrite run_app.
  destruct (run init pre) as [s0' o0] eqn:Hr0. cbn [fst snd] in *. subst s0'.
  set (t := token s1).
  assert (Hts : token s1 = S (S (token s0)))
    by (subst s1; unfold play, INTERRUPT_AUDIO; reflexivity).
  split; [lia|].
  rewrite run_cons. cbn [step]. replace (play true wav (Some c) s0) with s1 by done.
  assert (Hwf1 : wf s1) by (subst s1; apply (step_wf s0 (EPlay true wav (Some c)) Hwf0)).
  assert (Hown1 : owned c t s1).
  { subst t s1. unfold play, INTERRUPT_AUDIO. simpl. split.
    - exists wav. apply elem_of_app. right. by apply list_elem_of_singleton.
    - apply Forall_app. split.
      + eapply Forall_impl; [exact Habs0|]. intros th Hth Hc. done.
      + constructor; [done|constructor]. }
  rewrite run_app.
  pose proof (run_owned c t mid s1 Hwf1 Hown1 Hmid Hnf) as (Hown2 & Hc2 & Hf2 & Ht2).
  pose proof (wf_run s1 mid Hwf1) as Hwf2.
  destruct (run s1 mid) as [s2 o2]. cbn [fst snd] in *.
  destruct (finish_owned c t s2 Hwf2 Hown2) as [Hab3 Ho3].
  rewrite run_cons. destruct (step s2 (EFinish t)) as [s3 o3]. simpl in *.
  destruct (run_absent c s3 post Hab3 Hpost) as [_ Hc4].
  destruct (run s3 post) as [s4 o4]. simpl in *.
  rewrite !count_cb_app, (count_cb_absent c o0), (count_cb_absent c o2),
    (count_cb_absent c o4) by done.
  subst o3.
  assert (Hst1 : stop_event s1 = false)
    by (subst s1; unfold play, INTERRUPT_AUDIO; reflexivity).
  destruct (existsb interrupts mid) eqn:Hi.
  - specialize (Ht2 eq_refl).
    replace (Nat.eqb t (token s2)) with false by (symmetry; apply Nat.eqb_neq; lia).
    rewrite andb_false_r. reflexivity.
  - destruct (Hf2 eq_refl) as [Htok Hstop].
    rewrite Htok, Hstop, Hst1, Nat.eqb_refl. simpl.
    unfold count_cb. rewrite filter_cons_True by done. reflexivity.
Qed.

(** C10: [play] with a missing file changes nothing in the player (no
    token step, no [stop]), and the callback given to it is never invoked,
    neither by that call nor by anything after it. *)
Theorem play_missing_is_noop (pre post : list (event Cb)) (wav : string) (c : Cb) :
  Forall (not_play_of c) (pre ++ post) ->
  (forall s : player Cb, play false wav (Some c) s = s) /\
  run init (pre ++ EPlay false wav (Some c) :: post) = run init (pre ++ post) /\
  count_cb c (run init (pre ++ EPlay false wav (Some c) :: post)).2 = 0.
Proof.
  intros Hfresh.
  assert (Hrun : run init (pre ++ EPlay false wav (Some c) :: post) = run init (pre ++ post)).
  { rewrite !run_app. destruct (run init pre) as [s0 o0].
    cbn [run step play negb]. destruct (run s0 post) as [s2 o2]. done. }
  split; [done|]. split; [done|].
  rewrite Hrun. apply count_cb_absent.
  assert (Hab0 : absent c (init (Cb:=Cb))) by constructor.
  apply (run_absent c init (pre ++ post) Hab0 Hfresh).
Qed.

End AudioProps.

Lemma play_on_done_exactly_once_witness :
  Audio.token (Audio.init (Cb:=nat)) < Audio.token (Audio.play true "insect1_sound.wav" (Some 0) Audio.init) /\
  Audio.count_cb 0
    (Audio.run Audio.init
       ([] ++ Audio.EPlay true "insect1_sound.wav" (Some 0)
           :: [Audio.EPlay false "quiz_ready.wav" (Some 1)]
           ++ Audio.EFinish 2 :: [Audio.EStop]))
    .2 = 1.
Proof.
  exact (play_on_done_exactly_once [] [Audio.EPlay false "quiz_ready.wav" (Some 1)]
           [Audio.EStop] "insect1_sound.wav" 0 Audio.init
           (Audio.play true "insect1_sound.wav" (Some 0) Audio.init)
           eq_refl eq_refl
           ltac:(repeat constructor; simpl; lia)
           ltac:(simpl; set_solver)).
Defined.

Lemma play_missing_is_noop_witness :
  (forall s : Audio.player nat, Audio.play false "missing.wav" (Some 7) s = s) /\
  Audio.run Audio.init
    ([Audio.EPlay true "insect2_sound.wav" (Some 1)]
       ++ Audio.EPlay false "missing.wav" (Some 7) :: [Audio.EFinish 2])
  = Audio.run Audio.init
      ([Audio.EPlay true "insect2_sound.wav" (Some 1)] ++ [Audio.EFinish 2]) /\
  Audio.count_cb 7
    (Audio.run Audio.init
       ([Audio.EPlay true "insect2_sound.wav" (Some 1)]
          ++ Audio.EPlay false "missing.wav" (Some 7) :: [Audio.EFinish 2])).2 = 0.
Proof.
  exact (play_missing_is_noop [Audio.EPlay true "insect2_sound.wav" (Some 1)]
           [Audio.EFinish 2] "missing.wav" 7
           ltac:(repeat constructor; simpl; lia)).
Defined.

(* ------------------------------------------------------------------ *)
(** ** The controller: frame lemmas

    [keeps proj m]: running [m] leaves the field [proj] unchanged.
    [nofail m]: [m] raises no exception. *)

Definition keeps {A B : Type} (proj : ctrl -> B) (m : M A) : Prop :=
  forall s, proj (m s).2 = proj s.

Definition nofail {A : Type} (m : M A) : Prop :=
  forall s, is_Some (m s).1.

Lemma keeps_bind {A B C : Type} (proj : ctrl -> C) (m : M A) (k : A -> M B) :
  keeps proj m -> (forall x, keeps proj (k x)) -> keeps proj (mbind k m).
Proof.
  intros Hm Hk s. unfold mbind, M_bind. specialize (Hm s).
  destruct (m s) as [[x|] s']; simpl in *; [rewrite Hk|]; done.
Qed.

Lemma keeps_ret {A C : Type} (proj : ctrl -> C) (x : A) : keeps proj (mret x).
Proof. done. Qed.

Lemma keeps_raise {A C : Type} (proj : ctrl -> C) : keeps proj (@raise A).
Proof. done. Qed.

Lemma keeps_gets {A C : Type} (proj : ctrl -> C) (f : ctrl -> A) : keeps proj (gets f).
Proof. done. Qed.

Lemma keeps_after {C : Type} (proj : ctrl -> C) (ms : nat) (j : job) :
  (forall v s, proj (set_timers v s) = proj s) ->
  (forall v s, proj (set_next_id v s) = proj s) ->
  keeps proj (after ms j).
Proof. intros H1 H2 s. simpl. by rewrite H2, H1. Qed.

Lemma keeps_for_each {A C : Type} (proj : ctrl -> C) (xs : list A) (f : A -> M unit) :
  (forall x, keeps proj (f x)) -> keeps proj (for_each xs f).
Proof.
  intros Hf. induction xs as [|x xs IH]; simpl; [apply keeps_ret|].
  by apply keeps_bind.
Qed.

Lemma nofail_bind {A B : Type} (m : M A) (k : A -> M B) :
  nofail m -> (forall x, nofail (k x)) -> nofail (mbind k m).
Proof.
  intros Hm Hk s. unfold mbind, M_bind. specialize (Hm s).
  destruct (m s) as [[x|] s']; simpl in *; [apply Hk|by destruct Hm].
Qed.

Lemma nofail_for_each {A : Type} (xs : list A) (f : A -> M unit) :
  (forall x, nofail (f x)) -> nofail (for_each xs f).
Proof.
  intros Hf. induction xs as [|x xs IH]; simpl; [intros s; by eexists|].
  by apply nofail_bind.
Qed.

(** Sequencing after a computation that does not raise. *)
Lemma seq_nofail {B : Type} (m : M unit) (k : unit -> M B) (s : ctrl) :
  nofail m -> mbind k m s = k tt (m s).2.
Proof.
  intros Hm. specialize (Hm s). unfold mbind, M_bind.
  destruct (m s) as [[[]|] s']; [done|by destruct Hm].
Qed.

Ltac unfold_helpers :=
  repeat progress unfold end_flash, stop_flash, cancel_job, after_cancel, set_all,
    set_color, status_set, audio_play, audio_stop, lock_inputs, unlock_inputs,
    play_audio_locked, flash_multicolor, flash_multi_tick, flash_uniform,
    flash_uniform_tick, skip, bind.

(** Proves [keeps proj m] for a field [proj] that none of the assignments
    in [m] touches. *)
Ltac keeps_tac :=
  unfold_helpers;
  repeat match goal with
  | |- keeps _ (mbind _ _) => apply keeps_bind; [|intros ?]
  | |- keeps _ (mret _) => apply keeps_ret
  | |- keeps _ raise => apply keeps_raise
  | |- keeps _ (gets _) => apply keeps_gets
  | |- keeps _ (modify _) => intros ?; reflexivity
  | |- keeps _ (after _ _) => apply keeps_after; intros; reflexivity
  | |- keeps _ (for_each _ _) => apply keeps_for_each; intros ?
  | |- keeps _ (if ?b then _ else _) => destruct b
  | |- keeps _ (match ?x with _ => _ end) => destruct x
  end.

Ltac nofail_tac :=
  unfold_helpers;
  repeat match goal with
  | |- nofail (mbind _ _) => apply nofail_bind; [|intros ?]
  | |- nofail (mret _) => intros ?; by eexists
  | |- nofail (gets _) => intros ?; by eexists
  | |- nofail (modify _) => intros ?; by eexists
  | |- nofail (after _ _) => intros ?; by eexists
  | |- nofail (for_each _ _) => apply nofail_for_each; intros ?
  | |- nofail (if ?b then _ else _) => destruct b
  | |- nofail (match ?x with _ => _ end) => destruct x
  end.

Ltac msimpl := unfold bind, mbind, M_bind, gets, modify, skip, mret, M_ret, raise; simpl.

(** Symbolic execution: unfold the monad and split on every condition
    that the state does not decide, discarding contradictory branches. *)
Ltac msym_case E :=
  simpl in E; try (rewrite bool_decide_eq_true in E); try (rewrite bool_decide_eq_false in E);
  repeat match goal with H : _ || _ = false |- _ => apply orb_false_iff in H as [? ?] end.

Ltac msym :=
  repeat (msimpl; try discriminate; try congruence; try contradiction;
    match goal with
    | |- context [ (if negb ?b then _ else _) _ ] =>
        let E := fresh "E" in destruct b eqn:E; msym_case E
    | |- context [ (if ?b || _ then _ else _) _ ] =>
        let E := fresh "E" in destruct b eqn:E; msym_case E
    | |- context [ (if ?b then _ else _) _ ] =>
        let E := fresh "E" in destruct b eqn:E; msym_case E
    | |- context [ (match ?x with _ => _ end) _ ] =>
        let E := fresh "E" in destruct x eqn:E
    end);
  msimpl.

Lemma end_press_nofail (press_type key : string) : nofail (end_press press_type key).
Proof. unfold end_press. nofail_tac. Qed.

Lemma end_press_effect (press_type key : string) (s : ctrl) :
  (end_press press_type key s).2 =
  if bool_decide (pressed s = Some (press_type, key)) then set_pressed None s else s.
Proof. unfold end_press. msimpl. by case_bool_decide. Qed.

Theorem invalid_answer_is_noop (fs : string -> bool) (s : ctrl) (key : string) :
  quiz_waiting s = true -> quiz_active s = true ->
  (input_locked s = true \/ key ∉ quiz_options s) ->
  (on_insect_down key s).2 = s /\
  (on_insect_up fs key s).2 = (end_press "insect" key s).2 /\
  score (on_insect_up fs key s).2 = score s /\
  q_index (on_insect_up fs key s).2 = q_index s /\
  quiz_waiting (on_insect_up fs key s).2 = true /\
  quiz_options (on_insect_up fs key s).2 = quiz_options s /\
  status (on_insect_up fs key s).2 = status s /\
  leds (on_insect_up fs key s).2 = leds s /\
  audio (on_insect_up fs key s).2 = audio s /\
  timers (on_insect_up fs key s).2 = timers s.
Proof.
  intros Hw Ha Hinv.
  assert (Hup : (on_insect_up fs key s).2 = (end_press "insect" key s).2).
  { unfold on_insect_up, bind.
    rewrite (seq_nofail _ _ _ (end_press_nofail _ _)), end_press_effect.
    unfold handle_answer.
    destruct (bool_decide _); destruct Hinv; msym. }
  split.
  { unfold on_insect_down. msimpl. by rewrite Ha. }
  rewrite Hup, end_press_effect.
  destruct (bool_decide _); simpl; repeat split; done.
Qed.

(* ------------------------------------------------------------------ *)
(** ** Running a method one step at a time *)

Lemma bind_gets {A B : Type} (f : ctrl -> A) (k : A -> M B) (s : ctrl) :
  bind (gets f) k s = k (f s) s.
Proof. done. Qed.

Lemma bind_nofail {B : Type} (m : M unit) (k : unit -> M B) (s : ctrl) :
  nofail m -> bind m k s = k tt (m s).2.
Proof. apply seq_nofail. Qed.

Lemma modify_seq {B : Type} (f : ctrl -> ctrl) (k : unit -> M B) (s : ctrl) :
  mbind k (modify f) s = k tt (f s).
Proof. done. Qed.

Lemma current_key_run (s : ctrl) (k : string) :
  quiz_sequence s !! q_index s = Some k -> current_key s = (Some k, s).
Proof. intros H. unfold current_key. msimpl. by rewrite H. Qed.

Lemma bind_current_key {B : Type} (k : string -> M B) (s : ctrl) (ck : string) :
  quiz_sequence s !! q_index s = Some ck -> bind current_key k s = k ck s.
Proof. intros H. unfold bind, mbind, M_bind. by rewrite (current_key_run s ck H). Qed.

Lemma cancel_job_nofail (get : ctrl -> option nat) (put : option nat -> ctrl -> ctrl) :
  nofail (cancel_job get put).
Proof. nofail_tac. Qed.


Lemma end_flash_nofail : nofail end_flash.
Proof. nofail_tac. Qed.

(** The fields of the quiz session that the flash helpers leave alone. *)
Ltac session_keeps := split; [|split; [|split; [|split]]]; keeps_tac.

Lemma cancel_answer_timeout_keeps :
  keeps score (cancel_job answer_timeout_job set_answer_timeout_job) /\
  keeps q_index (cancel_job answer_timeout_job set_answer_timeout_job) /\
  keeps quiz_sequence (cancel_job answer_timeout_job set_answer_timeout_job) /\
  keeps quiz_options (cancel_job answer_timeout_job set_answer_timeout_job) /\
  keeps quiz_active (cancel_job answer_timeout_job set_answer_timeout_job).
Proof. session_keeps. Qed.

Lemma end_flash_keeps :
  keeps score end_flash /\ keeps q_index end_flash /\ keeps quiz_sequence end_flash /\
  keeps quiz_options end_flash /\ keeps quiz_active end_flash.
Proof. session_keeps. Qed.

(** With both feedback clips present, [_feedback] does not touch the score. *)
Lemma feedback_keeps_score (fs : string -> bool) (correct : bool) :
  fs CORRECT_WAV = true -> fs INCORRECT_WAV = true -> keeps score (feedback fs correct).
Proof.
  intros Hc Hi. unfold feedback.
  destruct correct; [rewrite Hc|rewrite Hi]; simpl; unfold current_key; keeps_tac.
Qed.

(** C3: an accepted answer (the controller awaits an answer, the input is
    not locked, the key is one of the four options) adds one to the score
    exactly when the key is the round's correct key [quiz_sequence[q_index]];
    the answer timeout never changes the score. *)
Theorem score_counts_correct_answers (fs : string -> bool) (s : ctrl) (key ck : string) :
  fs CORRECT_WAV = true -> fs INCORRECT_WAV = true ->
  quiz_sequence s !! q_index s = Some ck ->
  (quiz_waiting s = true -> quiz_active s = true -> input_locked s = false ->
   key ∈ quiz_options s ->
   score (handle_answer fs key s).2 = score s + (if String.eqb key ck then 1 else 0)) /\
  score (timeout fs s).2 = score s.
Proof.
  intros Hc Hi Hk. split.
  - intros Hw Ha Hl Hin. unfold handle_answer.
    rewrite !bind_gets, Hw, Ha; cbv beta iota delta [negb orb].
    rewrite bind_gets, Hl, bind_gets, bool_decide_true by done; cbv beta iota delta [negb].
    rewrite modify_seq; cbv beta.
    rewrite seq_nofail by apply cancel_job_nofail; cbv beta.
    rewrite seq_nofail by apply end_flash_nofail; cbv beta.
    destruct cancel_answer_timeout_keeps as (Ts & Ti & Tq & _).
    destruct end_flash_keeps as (Es & Ei & Eq & _).
    rewrite (bind_current_key _ _ ck).
    2:{ rewrite Eq, Ei, Tq, Ti. exact Hk. }
    destruct (String.eqb key ck); cbv beta iota;
      (rewrite seq_nofail by (intros ?; eexists; reflexivity); cbv beta;
       rewrite (feedback_keeps_score fs _ Hc Hi); simpl;
       rewrite Es, Ts; simpl; lia).
  - unfold timeout. rewrite modify_seq; cbv beta. rewrite !bind_gets.
    destruct (negb _ || negb _); cbv beta iota; [done|].
    rewrite modify_seq; cbv beta.
    rewrite seq_nofail by apply end_flash_nofail; cbv beta.
    rewrite (feedback_keeps_score fs _ Hc Hi).
    destruct end_flash_keeps as (Es & _). by rewrite Es.
Qed.

(* ------------------------------------------------------------------ *)
(** ** [abort_quiz] *)

Lemma abort_quiz_effect (fs : string -> bool) (s : ctrl) :
  quiz_active (abort_quiz fs s).2 = false /\
  quiz_waiting (abort_quiz fs s).2 = false /\
  q_index (abort_quiz fs s).2 = 0 /\
  score (abort_quiz fs s).2 = 0 /\
  quiz_options (abort_quiz fs s).2 = [] /\
  quiz_sequence (abort_quiz fs s).2 = [] /\
  pressed (abort_quiz fs s).2 = None /\
  answer_timeout_job (abort_quiz fs s).2 = None /\
  quiz_job (abort_quiz fs s).2 = None /\
  flash_job (abort_quiz fs s).2 = None /\
  flash_end_job (abort_quiz fs s).2 = None /\
  input_locked (abort_quiz fs s).2 = fs QUIZ_ABORT_WAV /\
  leds (abort_quiz fs s).2 = leds s /\
  Audio.token (audio s) < Audio.token (audio (abort_quiz fs s).2) /\
  (forall x, x ∈ timers (abort_quiz fs s).2 <->
             x ∈ timers s /\ x.1.1 ∉ quiz_timer_ids s).
Proof.
  unfold abort_quiz, quiz_timer_ids. unfold_helpers. msym;
    unfold Audio.play, Audio.stop, INTERRUPT_AUDIO; simpl;
    (split_and!; [try congruence; try lia ..| ]);
    intros x; rewrite ?list_elem_of_filter, ?E, ?E0, ?E1, ?E2; simpl;
    rewrite ?not_elem_of_cons, ?elem_of_nil; naive_solver.
Qed.

(* ------------------------------------------------------------------ *)
(** ** [_end_quiz] *)

Lemma first_existing_exists (fs : string -> bool) (names : list string) (c : string) :
  first_existing fs names = Some c -> fs c = true.
Proof. unfold first_existing. intros H. by apply List.find_some in H as [_ ->]. Qed.

Lemma end_quiz_effect (fs : string -> bool) (s : ctrl) :
  quiz_active (end_quiz fs s).2 = false /\
  quiz_waiting (end_quiz fs s).2 = false /\
  pressed (end_quiz fs s).2 = None /\
  flash_job (end_quiz fs s).2 = None /\
  flash_end_job (end_quiz fs s).2 = None /\
  leds (end_quiz fs s).2 = led_set_all "gray" (leds s) /\
  q_index (end_quiz fs s).2 = q_index s /\
  score (end_quiz fs s).2 = score s /\
  quiz_options (end_quiz fs s).2 = quiz_options s /\
  quiz_sequence (end_quiz fs s).2 = quiz_sequence s /\
  answer_timeout_job (end_quiz fs s).2 = answer_timeout_job s /\
  quiz_job (end_quiz fs s).2 = quiz_job s /\
  (forall x, x ∈ timers (end_quiz fs s).2 <->
             x ∈ timers s /\ x.1.1 ∉ option_list (flash_job s) ++ option_list (flash_end_job s)).
Proof.
  unfold end_quiz.
  destruct (first_existing fs QUIZ_COMPLETE_NAMES) as [c|] eqn:Ec;
    [apply first_existing_exists in Ec; unfold play_audio_locked; rewrite Ec|];
    unfold_helpers; msym;
    (split_and!; [try congruence ..| ]);
    intros x; rewrite ?list_elem_of_filter, ?E, ?E0; simpl;
    rewrite ?not_elem_of_cons, ?elem_of_nil; naive_solver.
Qed.







(** C5: after completion every lamp is gray and the flash jobs are
    cancelled, but [abort_quiz] calls [_stop_flash], not [_end_flash]: it
    cancels the flash jobs and leaves every lamp as it was.  Aborting during
    the answer window, while the four options are lit yellow, leaves them
    yellow. *)
Theorem abort_leaves_lamps_lit :
  (forall fs s, leds (end_quiz fs s).2 = led_set_all "gray" (leds s) /\
                flash_job (end_quiz fs s).2 = None /\
                flash_end_job (end_quiz fs s).2 = None) /\
  (forall fs s, leds (abort_quiz fs s).2 = leds s) /\
  quiz_active demo_answer_window = true /\
  ("insect1", "yellow") ∈ leds demo_answer_window /\
  quiz_active (loop_step all_files (LInput AbortPressed) demo_answer_window) = false /\
  leds (loop_step all_files (LInput AbortPressed) demo_answer_window) =
    leds demo_answer_window.
Proof.
  split.
  { intros fs s. pose proof (end_quiz_effect fs s) as (_&_&_&?&?&?&_). done. }
  split.
  { intros fs s. pose proof (abort_quiz_effect fs s) as (_&_&_&_&_&_&_&_&_&_&_&_&?&_). done. }
  split; [vm_compute; reflexivity|]. split.
  { vm_compute. left. }
  split; vm_compute; reflexivity.
Qed.

(** C6 (as the code has it): aborting resets every field of the quiz
    session (active and waiting flags, round index, score, options, round
    sequence, pressed input, the answer-timeout, quiz-hold and flash jobs,
    which are removed from the [after] queue, no other job being touched);
    completing the quiz clears the active and waiting flags, the pressed
    input and the flash jobs (removed from the [after] queue, no other job
    being touched), and keeps the final score, the round index,
    the last options and the round sequence, which [_start_quiz]
    reinitialises. *)
Theorem session_reset_on_abort_and_end (fs : string -> bool) (s : ctrl) :
  (quiz_active (abort_quiz fs s).2 = false /\
   quiz_waiting (abort_quiz fs s).2 = false /\
   q_index (abort_quiz fs s).2 = 0 /\
   score (abort_quiz fs s).2 = 0 /\
   quiz_options (abort_quiz fs s).2 = [] /\
   quiz_sequence (abort_quiz fs s).2 = [] /\
   pressed (abort_quiz fs s).2 = None /\
   answer_timeout_job (abort_quiz fs s).2 = None /\
   quiz_job (abort_quiz fs s).2 = None /\
   flash_job (abort_quiz fs s).2 = None /\
   flash_end_job (abort_quiz fs s).2 = None /\
   (forall x, x ∈ timers (abort_quiz fs s).2 <->
              x ∈ timers s /\ x.1.1 ∉ quiz_timer_ids s)) /\
  (quiz_active (end_quiz fs s).2 = false /\
   quiz_waiting (end_quiz fs s).2 = false /\
   pressed (end_quiz fs s).2 = None /\
   flash_job (end_quiz fs s).2 = None /\
   flash_end_job (end_quiz fs s).2 = None /\
   q_index (end_quiz fs s).2 = q_index s /\
   score (end_quiz fs s).2 = score s /\
   quiz_options (end_quiz fs s).2 = quiz_options s /\
   quiz_sequence (end_quiz fs s).2 = quiz_sequence s /\
   (forall x, x ∈ timers (end_quiz fs s).2 <->
              x ∈ timers s /\ x.1.1 ∉ option_list (flash_job s) ++ option_list (flash_end_job s))).
Proof.
  pose proof (abort_quiz_effect fs s) as (?&?&?&?&?&?&?&?&?&?&?&_&_&_&?).
  pose proof (end_quiz_effect fs s) as (?&?&?&?&?&_&?&?&?&?&_&_&?).
  by split_and!.
Qed.

(** C6 fails as stated: after the five rounds of the sample session are
    answered right, the quiz is complete and inactive, but the score, the
    round index and the last answer options are kept. *)
Lemma quiz_complete_keeps_session :
  quiz_active demo_complete = false /\ status demo_complete = "Quiz: Complete" /\
  score demo_complete = 5 /\ q_index demo_complete = 5 /\
  quiz_options demo_complete = ["insect1"; "insect6"; "insect8"; "insect3"].
Proof. vm_compute. repeat split. Qed.

(* ------------------------------------------------------------------ *)
(** ** Feedback and the move to the next round *)








(** The lamps of [TkLedOutput]. *)
Lemma led_set_color_keys (key color : string) (ls : list (string * string)) :
  map fst (led_set_color key color ls) = map fst ls.
Proof.
  induction ls as [|[k c] ls IH]; simpl; [done|].
  destruct (String.eqb k key); simpl; by rewrite IH.
Qed.

Lemma led_set_all_keys (color : string) (ls : list (string * string)) :
  map fst (led_set_all color ls) = map fst ls.
Proof. induction ls as [|[k c] ls IH]; simpl; [done|]. by rewrite IH. Qed.

Lemma led_set_all_color (color : string) (ls : list (string * string)) :
  Forall (fun kc => kc.2 = color) (led_set_all color ls).
Proof. induction ls as [|[k c] ls IH]; simpl; by constructor. Qed.

Lemma led_set_color_elem (key color : string) (ls : list (string * string)) (k c : string) :
  (k, c) ∈ led_set_color key color ls <->
  (k <> key /\ (k, c) ∈ ls) \/ (k = key /\ c = color /\ exists c0, (key, c0) ∈ ls).
Proof.
  induction ls as [|[k' c'] ls IH]; simpl.
  - split; [intros H; by apply elem_of_nil in H|].
    intros [[_ H]|(_ & _ & c0 & H)]; by apply elem_of_nil in H.
  - destruct (String.eqb_spec k' key) as [->|Hne]; rewrite elem_of_cons, IH;
      setoid_rewrite elem_of_cons; naive_solver.
Qed.




















#[local] Arguments pick_4_options : simpl never.








(* ------------------------------------------------------------------ *)
(** ** Learn mode: holding a slot key *)

(** C9: in learn mode (no quiz, input not locked, nothing pressed),
    pressing a slot key schedules [_insect_hold_fire] 2000 ms later; if the
    key is still pressed when it fires, the slot's narration clip is played,
    or its short clip when the narration file is missing, with the input
    locked; while the input is locked every button is ignored (the lock
    stays, no playback starts), and the clip's [on_done] unlocks the
    input. *)
Theorem hold_plays_narration_locked (fs : string -> bool) (s : ctrl) (key : string) :
  key ∈ slot_keys -> quiz_active s = false -> input_locked s = false -> pressed s = None ->
  (fs (narration_wav key) = true \/ fs (sound_wav key) = true) ->
  (exists id, hold_jobs (on_insect_down key s).2 !! key = Some id /\
     (id, now s + HOLD_SECONDS_MS, JHoldFire key) ∈ timers (on_insect_down key s).2 /\
     pressed (on_insect_down key s).2 = Some ("insect", key)) /\
  (forall t, pressed t = Some ("insect", key) ->
     input_locked (run_job fs (JHoldFire key) t).2 = true /\
     last (Audio.threads (audio (run_job fs (JHoldFire key) t).2)) =
       Some (Audio.token (audio (run_job fs (JHoldFire key) t).2),
             if fs (narration_wav key) then narration_wav key else sound_wav key,
             Some (Some (ADSlotAfter key)))) /\
  (forall t i, input_locked t = true -> quiz_active t = false -> quiz_waiting t = false ->
     input_locked (handle_input fs i t).2 = true /\ audio (handle_input fs i t).2 = audio t) /\
  (forall t, input_locked (run_job fs (JOnUI (Some (ADSlotAfter key))) t).2 = false).
Proof.
  intros Hkey Ha Hl Hp Hex. split_and!.
  - unfold on_insect_down, begin_press. unfold_helpers. msym;
      (eexists; split; [by rewrite lookup_insert_eq|];
       split; [apply elem_of_app; right; by left | done]).
  - intros t Ht. unfold run_job, insect_hold_fire, play_slot_audio.
    unfold_helpers. msym;
      (destruct (fs (narration_wav key)) eqn:En; simpl in *;
       try (destruct Hex; congruence);
       (split; [done|by rewrite last_snoc])).
  - intros t [] Htl Hta Htw; unfold handle_input.
    + unfold on_insect_down, begin_press. msym; split; congruence.
    + unfold on_insect_up, end_press. unfold_helpers. msym; split; congruence.
    + unfold on_quiz_down, begin_press. msym; split; congruence.
    + unfold on_quiz_up, end_press. unfold_helpers. msym; split; congruence.
    + unfold on_abort_pressed. msym; split; congruence.
  - intros t. unfold run_job, run_after_done, unlock_inputs. unfold_helpers. msym.
Qed.

Lemma hold_plays_narration_locked_witness :
  input_locked
    (run_job all_files (JHoldFire "insect1") (on_insect_down "insect1" (initial_ctrl demo_rng)).2).2
  = true.
Proof.
  destruct (hold_plays_narration_locked all_files (initial_ctrl demo_rng) "insect1"
    ltac:(unfold slot_keys, INSECT_KEYS; apply elem_of_cons; by left) eq_refl eq_refl eq_refl
    (or_introl eq_refl)) as (_ & H & _).
  apply H. vm_compute. reflexivity.
Defined.

Lemma score_counts_correct_answers_witness :
  score (handle_answer all_files "insect1" demo_answer_window).2 =
    score demo_answer_window + (if String.eqb "insect1" "insect1" then 1 else 0).
Proof.
  destruct (score_counts_correct_answers all_files demo_answer_window "insect1" "insect1"
    eq_refl eq_refl ltac:(vm_compute; reflexivity)) as [H _].
  apply H.
  - vm_compute. reflexivity.
  - vm_compute. reflexivity.
  - vm_compute. reflexivity.
  - apply (bool_decide_unpack _). vm_compute. reflexivity.
Defined.

Lemma invalid_answer_is_noop_witness :
  score (on_insect_up all_files "insect3" demo_answer_window).2 = score demo_answer_window.
Proof.
  destruct (invalid_answer_is_noop all_files demo_answer_window "insect3"
    ltac:(vm_compute; reflexivity) ltac:(vm_compute; reflexivity)
    ltac:(right; apply (bool_decide_unpack _); vm_compute; reflexivity)) as (_&_&H&_).
  exact H.
Defined.

(* ================================================================== *)
(** * Further properties of the controller *)

(* ------------------------------------------------------------------ *)
(** ** Button states *)

Lemma insect_states_all (s : ctrl) (st : btn_state) :
  (forall k, insect_button_state s k = st) ->
  Forall (fun ks => ks.2 = st) (insect_states (apply_ui_state s)).
Proof.
  intros H. unfold apply_ui_state, insect_states. apply Forall_map.
  apply Forall_forall. intros k _. apply H.
Qed.

Lemma end_quiz_lock (fs : string -> bool) (s : ctrl) :
  input_locked (end_quiz fs s).2 =
    match first_existing fs QUIZ_COMPLETE_NAMES with
    | Some _ => true
    | None => input_locked s
    end.
Proof.
  unfold end_quiz.
  destruct (first_existing fs QUIZ_COMPLETE_NAMES) as [c|] eqn:Ec;
    [apply first_existing_exists in Ec; unfold play_audio_locked; rewrite Ec|];
    unfold_helpers; msym.
Qed.

(** [after] does not touch the fields [_apply_ui_state] reads. *)
Lemma flash_uniform_keeps (keys : list string) (color : string) (interval_ms duration_ms : nat) :
  let m := flash_uniform keys color interval_ms duration_ms in
  keeps input_locked m /\ keeps quiz_options m /\ keeps quiz_active m /\
  keeps quiz_waiting m /\ keeps pressed m /\ keeps now m.
Proof. split_and!; keeps_tac. Qed.

Lemma flash_uniform_nofail (keys : list string) (color : string) (interval_ms duration_ms : nat) :
  nofail (flash_uniform keys color interval_ms duration_ms).
Proof. nofail_tac. Qed.

(** After [abort_quiz] the abort button is disabled.  While the abort
    clip plays (the input is locked, nothing is pressed) the quiz button
    and every insect button are disabled too; without an abort clip they
    are all enabled. *)
Theorem abort_buttons (fs : string -> bool) (s : ctrl) :
  abort_button_state (abort_quiz fs s).2 = DISABLED /\
  quiz_button_state (abort_quiz fs s).2 = (if fs QUIZ_ABORT_WAV then DISABLED else NORMAL) /\
  Forall (fun ks => ks.2 = if fs QUIZ_ABORT_WAV then DISABLED else NORMAL)
    (insect_states (apply_ui_state (abort_quiz fs s).2)).
Proof.
  destruct (abort_quiz_effect fs s) as (A & W & _ & _ & _ & _ & P & _ & _ & _ & _ & L & _).
  unfold abort_button_state, quiz_button_state, is_pressed. rewrite A, P, L.
  split; [done|]. split; [by destruct (fs QUIZ_ABORT_WAV)|].
  apply insect_states_all. intros k. unfold insect_button_state, is_pressed.
  rewrite A, W, P, L. by destruct (fs QUIZ_ABORT_WAV).
Qed.

(** After [_end_quiz] the abort button is disabled.  When a completion
    clip exists, every other button is disabled while it plays (the input
    is locked and nothing is pressed); otherwise every button other than
    abort is enabled, unless the input was already locked. *)
Theorem end_quiz_buttons (fs : string -> bool) (s : ctrl) :
  let st := match first_existing fs QUIZ_COMPLETE_NAMES with
            | Some _ => DISABLED
            | None => if input_locked s then DISABLED else NORMAL
            end in
  abort_button_state (end_quiz fs s).2 = DISABLED /\
  quiz_button_state (end_quiz fs s).2 = st /\
  Forall (fun ks => ks.2 = st) (insect_states (apply_ui_state (end_quiz fs s).2)).
Proof.
  intros st.
  destruct (end_quiz_effect fs s) as (A & W & P & _).
  pose proof (end_quiz_lock fs s) as L.
  unfold abort_button_state, quiz_button_state, is_pressed. rewrite A, P, L.
  split; [done|]. split.
  { unfold st. destruct (first_existing _ _); [done|]. by destruct (input_locked s). }
  apply insect_states_all. intros k. unfold insect_button_state, is_pressed.
  rewrite A, W, P, L. unfold st.
  destruct (first_existing _ _); [done|]. by destruct (input_locked s).
Qed.

(** When the answer window opens in an active quiz with the input
    unlocked, exactly the insect buttons of the four options are enabled,
    the quiz button is disabled and the abort button enabled; the answer
    timeout is pending, due 10 s later. *)
Theorem answer_window_buttons (s : ctrl) :
  quiz_active s = true -> input_locked s = false ->
  quiz_waiting (start_answer_window s).2 = true /\
  (forall k, insect_button_state (start_answer_window s).2 k =
               if bool_decide (k ∈ quiz_options s) then NORMAL else DISABLED) /\
  quiz_button_state (start_answer_window s).2 = DISABLED /\
  abort_button_state (start_answer_window s).2 = NORMAL /\
  exists id, answer_timeout_job (start_answer_window s).2 = Some id /\
    (id, now s + ANSWER_SECONDS * 1000, JTimeout) ∈ timers (start_answer_window s).2.
Proof.
  intros Ha Hl. unfold start_answer_window.
  rewrite bind_gets, Ha. cbv beta iota delta [negb].
  rewrite modify_seq; cbv beta. unfold status_set. rewrite modify_seq; cbv beta.
  rewrite bind_gets.
  rewrite seq_nofail by apply flash_uniform_nofail. cbv beta.
  destruct (flash_uniform_keeps (quiz_options s) "yellow" FLASH_INTERVAL_MS
    (ANSWER_SECONDS * 1000)) as (Kl & Ko & Ka & Kw & Kp & Kn).
  set (t := set_status _ _).
  set (u := (flash_uniform _ _ _ _ t).2).
  assert (Hu : input_locked u = false /\ quiz_options u = quiz_options s /\
               quiz_active u = true /\ quiz_waiting u = true /\ now u = now s).
  { unfold u. rewrite Kl, Ko, Ka, Kw, Kn. unfold t. simpl. done. }
  destruct Hu as (Ul & Uo & Ua & Uw & Un).
  unfold bind, mbind, M_bind, after, modify. simpl.
  unfold insect_button_state, quiz_button_state, abort_button_state, is_pressed. simpl.
  rewrite Ul, Uo, Ua, Uw, Un. simpl. split_and!; try done.
  eexists. split; [done|]. apply elem_of_app. right. by left.
Qed.

(* ------------------------------------------------------------------ *)
(** ** Presses refused, stale callbacks *)

(** A press of an insect button or of the quiz button while the input is
    locked or another button is held changes nothing. *)
Theorem press_ignored_while_busy (key : string) (s : ctrl) :
  input_locked s = true \/ pressed s <> None ->
  on_insect_down key s = (Some tt, s) /\ on_quiz_down s = (Some tt, s).
Proof.
  intros H. unfold on_insect_down, on_quiz_down, begin_press.
  destruct H as [H|H]; msym; done.
Qed.

(** A hold timer that fires after its button was released starts
    nothing: [_insect_hold_fire] for a slot key that is no longer pressed
    changes nothing, and [_start_quiz_hold_fire] when the quiz button is no
    longer pressed only records that the hold fired. *)
Theorem hold_fire_after_release (fs : string -> bool) (key : string) (s : ctrl) :
  (pressed s <> Some ("insect", key) -> insect_hold_fire fs key s = (Some tt, s)) /\
  (pressed s <> Some ("quiz", "quiz") ->
   start_quiz_hold_fire fs s = (Some tt, set_quiz_job None (set_quiz_hold_fired true s))).
Proof.
  split; intros Hp; unfold insect_hold_fire, start_quiz_hold_fire; msimpl;
    rewrite bool_decide_false by done; done.
Qed.

(** An answer timeout that fires when no answer is awaited (it was given,
    or the quiz is over) only forgets its job id. *)
Theorem late_timeout_is_harmless (fs : string -> bool) (s : ctrl) :
  quiz_waiting s = false \/ quiz_active s = false ->
  timeout fs s = (Some tt, set_answer_timeout_job None s).
Proof. intros [H|H]; unfold timeout; msimpl; rewrite H; simpl; [done|by rewrite orb_true_r]. Qed.

(** With no quiz active, the callbacks of the quiz flow that may still be
    pending ([_play_question], [_start_answer_window], [_next_or_end]) and
    the abort button do nothing. *)
Theorem quiz_callbacks_inert_when_inactive (fs : string -> bool) (s : ctrl) :
  quiz_active s = false ->
  play_question fs s = (Some tt, s) /\ start_answer_window s = (Some tt, s) /\
  next_or_end fs s = (Some tt, s) /\ on_abort_pressed fs s = (Some tt, s).
Proof.
  intros H. unfold play_question, start_answer_window, next_or_end, on_abort_pressed.
  msimpl. by rewrite H.
Qed.

(** [_start_quiz] refuses to start when fewer than 4 slots have their
    sound file, or when [correct.wav] or [incorrect.wav] is missing: it
    only sets the status message and clears the press. *)
Theorem start_quiz_refused (fs : string -> bool) (s : ctrl) :
  length (filter (fun k => fs (sound_wav k) = true) slot_keys) < 4 \/
  fs CORRECT_WAV = false \/ fs INCORRECT_WAV = false ->
  start_quiz fs s =
    (Some tt, set_pressed None (set_status
      (if bool_decide (length (filter (fun k => fs (sound_wav k) = true) slot_keys) < 4)
       then "Need at least 4 insect*_sound.wav files for the quiz."
       else "Missing: correct.wav or incorrect.wav") s)).
Proof.
  intros H. unfold start_quiz, status_set.
  case_bool_decide; [msym|].
  destruct H as [H|[H|H]]; [lia| |]; rewrite H; simpl; [|by rewrite orb_true_r]; msym.
Qed.

(* ------------------------------------------------------------------ *)
(** ** Learn mode: a short press *)

Lemma insect_down_learn (s : ctrl) (key : string) :
  quiz_active s = false -> input_locked s = false -> pressed s = None ->
  pressed (on_insect_down key s).2 = Some ("insect", key) /\
  input_locked (on_insect_down key s).2 = false /\
  quiz_active (on_insect_down key s).2 = false /\
  quiz_waiting (on_insect_down key s).2 = quiz_waiting s /\
  (key ∉ hold_fired (on_insect_down key s).2) /\
  hold_jobs (on_insect_down key s).2 !! key = Some (next_id s) /\
  leds (on_insect_down key s).2 = leds s /\
  audio (on_insect_down key s).2 = audio s /\
  (forall x, x ∈ timers (on_insect_down key s).2 -> x ∈ timers s \/ x.1.1 = next_id s).
Proof.
  intros Ha Hl Hp. unfold on_insect_down, begin_press. unfold_helpers. msym;
    (split_and!; try done; [set_solver | by rewrite lookup_insert_eq |]);
    intros x; rewrite elem_of_app, ?list_elem_of_filter, list_elem_of_singleton;
    intros [?|?]; subst; naive_solver.
Qed.

Lemma insect_up_learn (fs : string -> bool) (d : ctrl) (key : string) (id : nat) :
  key ∈ slot_keys -> pressed d = Some ("insect", key) -> input_locked d = false ->
  quiz_active d = false -> quiz_waiting d = false -> (key ∉ hold_fired d) ->
  hold_jobs d !! key = Some id ->
  pressed (on_insect_up fs key d).2 = None /\
  hold_jobs (on_insect_up fs key d).2 !! key = None /\
  (forall x, x ∈ timers (on_insect_up fs key d).2 -> x ∈ timers d /\ x.1.1 <> id) /\
  if fs (sound_wav key) then
    status (on_insect_up fs key d).2 = ("Sound: " ++ key)%string /\
    input_locked (on_insect_up fs key d).2 = true /\
    audio (on_insect_up fs key d).2 =
      Audio.play true (sound_wav key) (Some (Some (ADSlotAfter key))) (audio d) /\
    leds (on_insect_up fs key d).2 =
      led_set_color key "green" (led_set_all "gray" (led_set_all "gray" (leds d)))
  else
    status (on_insect_up fs key d).2 = ("Missing: " ++ sound_wav key)%string /\
    input_locked (on_insect_up fs key d).2 = false /\
    audio (on_insect_up fs key d).2 = audio d /\
    leds (on_insect_up fs key d).2 = leds d.
Proof.
  intros Hk Hp Hl Ha Hw Hf Hj.
  unfold on_insect_up, end_press, play_slot_audio. unfold_helpers. msym;
    simplify_eq; (split_and!; try done; [by rewrite lookup_delete_eq|]);
    intros x; rewrite ?list_elem_of_filter; naive_solver.
Qed.

Lemma led_lit_one (key : string) (ls : list (string * string)) :
  Forall (fun kc => kc.2 = if String.eqb kc.1 key then "green" else "gray")
    (led_set_color key "green" (led_set_all "gray" ls)).
Proof.
  induction ls as [|[k c] ls IH]; simpl; [done|].
  destruct (String.eqb k key) eqn:E; simpl; constructor; simpl; try rewrite E; done.
Qed.

(** A short press of a slot key in learn mode (no quiz, input unlocked,
    nothing pressed): pressing and releasing it before the hold fires
    cancels the hold job (no job is left that was not pending before) and
    clears the press.  If the slot's sound file exists it is played with
    the input locked, its lamp lit green and every other lamp gray;
    otherwise the status reports the missing file and nothing else
    changes. *)
Theorem short_press_plays_sound (fs : string -> bool) (s : ctrl) (key : string) :
  key ∈ slot_keys -> quiz_active s = false -> quiz_waiting s = false ->
  input_locked s = false -> pressed s = None ->
  let s' := (on_insect_up fs key (on_insect_down key s).2).2 in
  pressed s' = None /\ hold_jobs s' !! key = None /\
  (forall x, x ∈ timers s' -> x ∈ timers s) /\
  if fs (sound_wav key) then
    status s' = ("Sound: " ++ key)%string /\ input_locked s' = true /\
    audio s' = Audio.play true (sound_wav key) (Some (Some (ADSlotAfter key))) (audio s) /\
    map fst (leds s') = map fst (leds s) /\
    Forall (fun kc => kc.2 = if String.eqb kc.1 key then "green" else "gray") (leds s')
  else
    status s' = ("Missing: " ++ sound_wav key)%string /\ input_locked s' = false /\
    audio s' = audio s /\ leds s' = leds s.
Proof.
  intros Hk Ha Hw Hl Hp s'.
  destruct (insect_down_learn s key Ha Hl Hp) as (D1 & D2 & D3 & D4 & D5 & D6 & D7 & D8 & D9).
  rewrite Hw in D4.
  destruct (insect_up_learn fs _ key (next_id s) Hk D1 D2 D3 D4 D5 D6) as (U1 & U2 & U3 & U4).
  fold s' in U1, U2, U3, U4.
  split_and!; [done|done| |].
  { intros x Hx. destruct (U3 x Hx) as [Hx' Hne]. by destruct (D9 x Hx'). }
  destruct (fs (sound_wav key)); destruct U4 as (V1 & V2 & V3 & V4);
    rewrite V1, V2, V3, ?V4, ?D7, ?D8; split_and!; try done.
  - by rewrite led_set_color_keys, !led_set_all_keys.
  - apply led_lit_one.
Qed.

(** [TkLedOutput.set_color] on a key that has no lamp changes nothing. *)
Theorem led_set_color_unknown_key (key color : string) (ls : list (string * string)) :
  key ∉ map fst ls -> led_set_color key color ls = ls.
Proof.
  induction ls as [|[k c] ls IH]; simpl; [done|].
  rewrite not_elem_of_cons. intros [Hne Hn].
  destruct (String.eqb_spec k key) as [->|_]; [done|]. by rewrite IH.
Qed.

(** [TkLedOutput.set_color(key, color)] keeps the set of lamps; the lamp
    of [key], if there is one, gets [color], and every other lamp keeps
    its colour. *)
Theorem led_set_color_effect (key color : string) (ls : list (string * string)) :
  map fst (led_set_color key color ls) = map fst ls /\
  (forall k c, (k, c) ∈ led_set_color key color ls <->
     (k <> key /\ (k, c) ∈ ls) \/ (k = key /\ c = color /\ exists c0, (key, c0) ∈ ls)).
Proof. split; [apply led_set_color_keys | intros; apply led_set_color_elem]. Qed.

(** [TkLedOutput.set_all(color)] keeps the set of lamps and gives every
    one of them [color]. *)
Theorem led_set_all_effect (color : string) (ls : list (string * string)) :
  map fst (led_set_all color ls) = map fst ls /\
  Forall (fun kc => kc.2 = color) (led_set_all color ls).
Proof. split; [apply led_set_all_keys | apply led_set_all_color]. Qed.

(* ------------------------------------------------------------------ *)
(** ** The quiz button: a short press *)

Lemma quiz_down_idle (s : ctrl) :
  quiz_active s = false -> input_locked s = false -> pressed s = None ->
  pressed (on_quiz_down s).2 = Some ("quiz", "quiz") /\
  input_locked (on_quiz_down s).2 = false /\
  quiz_active (on_quiz_down s).2 = false /\
  quiz_hold_fired (on_quiz_down s).2 = false /\
  quiz_job (on_quiz_down s).2 = Some (next_id s) /\
  audio (on_quiz_down s).2 = audio s /\
  (forall x, x ∈ timers (on_quiz_down s).2 -> x ∈ timers s \/ x.1.1 = next_id s).
Proof.
  intros Ha Hl Hp. unfold on_quiz_down, begin_press. unfold_helpers. msym;
    (split_and!; try done); intros x; rewrite elem_of_app, ?list_elem_of_filter, list_elem_of_singleton;
    intros [?|?]; subst; naive_solver.
Qed.

Lemma quiz_up_idle (fs : string -> bool) (d : ctrl) (id : nat) :
  pressed d = Some ("quiz", "quiz") -> input_locked d = false -> quiz_active d = false ->
  quiz_hold_fired d = false -> quiz_job d = Some id ->
  pressed (on_quiz_up fs d).2 = None /\
  quiz_job (on_quiz_up fs d).2 = None /\
  quiz_active (on_quiz_up fs d).2 = false /\
  (forall x, x ∈ timers (on_quiz_up fs d).2 -> x ∈ timers d /\ x.1.1 <> id) /\
  if fs QUIZ_WELCOME_WAV then
    status (on_quiz_up fs d).2 = "Quiz: Welcome" /\
    input_locked (on_quiz_up fs d).2 = true /\
    audio (on_quiz_up fs d).2 =
      Audio.play true QUIZ_WELCOME_WAV (Some (Some ADStatusReady)) (audio d)
  else
    status (on_quiz_up fs d).2 = "Ready" /\
    input_locked (on_quiz_up fs d).2 = false /\
    audio (on_quiz_up fs d).2 = audio d.
Proof.
  intros Hp Hl Ha Hf Hj. unfold on_quiz_up, end_press. unfold_helpers. msym;
    simplify_eq;
    try (match goal with E : _ || _ = true |- _ => rewrite Ha, Hl in E; discriminate end);
    (split_and!; try done); intros x; rewrite ?list_elem_of_filter; naive_solver.
Qed.

(** A short press of the quiz button while idle (no quiz, input unlocked,
    nothing pressed): releasing it before the 2 s hold cancels the pending
    quiz start, so no quiz starts and no job is left that was not pending
    before; the press is cleared, and [quiz_welcome.wav] is played with the
    input locked if it exists, otherwise the status returns to "Ready". *)
Theorem quiz_short_press_welcomes (fs : string -> bool) (s : ctrl) :
  quiz_active s = false -> input_locked s = false -> pressed s = None ->
  let s' := (on_quiz_up fs (on_quiz_down s).2).2 in
  quiz_active s' = false /\ pressed s' = None /\ quiz_job s' = None /\
  (forall x, x ∈ timers s' -> x ∈ timers s) /\
  if fs QUIZ_WELCOME_WAV then
    status s' = "Quiz: Welcome" /\ input_locked s' = true /\
    audio s' = Audio.play true QUIZ_WELCOME_WAV (Some (Some ADStatusReady)) (audio s)
  else
    status s' = "Ready" /\ input_locked s' = false /\ audio s' = audio s.
Proof.
  intros Ha Hl Hp s'.
  destruct (quiz_down_idle s Ha Hl Hp) as (D1 & D2 & D3 & D4 & D5 & D6 & D7).
  destruct (quiz_up_idle fs _ (next_id s) D1 D2 D3 D4 D5) as (U1 & U2 & U3 & U4 & U5).
  fold s' in U1, U2, U3, U4, U5.
  split_and!; [done|done|done| |].
  { intros x Hx. destruct (U4 x Hx) as [Hx' Hne]. by destruct (D7 x Hx'). }
  by rewrite D6 in U5.
Qed.

(* ------------------------------------------------------------------ *)
(** ** Starting a quiz and moving through its rounds *)

Lemma play_question_keeps_session (fs : string -> bool) (s : ctrl) :
  Forall (fun k => fs (sound_wav k) = true) (quiz_sequence s) ->
  quiz_active (play_question fs s).2 = quiz_active s /\
  quiz_sequence (play_question fs s).2 = quiz_sequence s /\
  q_index (play_question fs s).2 = q_index s /\
  score (play_question fs s).2 = score s /\
  pressed (play_question fs s).2 = pressed s.
Proof.
  intros Hall. unfold play_question, current_key, pick_4_options_m. unfold_helpers.
  msym;
    try match goal with
    | H : quiz_sequence _ !! _ = Some ?k, H' : fs (sound_wav ?k) = false |- _ =>
        pose proof (Forall_lookup_1 _ _ _ _ Hall H); congruence
    end;
    split_and!; congruence.
Qed.

Lemma end_flash_keeps_pressed : keeps pressed end_flash.
Proof. keeps_tac. Qed.

Lemma play_audio_locked_keeps_session (fs : string -> bool) (wav : string) (ad : option after_done) :
  keeps quiz_active (play_audio_locked fs wav ad) /\ keeps q_index (play_audio_locked fs wav ad) /\
  keeps score (play_audio_locked fs wav ad) /\ keeps pressed (play_audio_locked fs wav ad) /\
  keeps quiz_sequence (play_audio_locked fs wav ad).
Proof. split_and!; keeps_tac. Qed.

Lemma set_status_session (v : string) (s : ctrl) :
  quiz_active (set_status v s) = quiz_active s /\ q_index (set_status v s) = q_index s /\
  score (set_status v s) = score s /\ pressed (set_status v s) = pressed s /\
  quiz_sequence (set_status v s) = quiz_sequence s.
Proof. done. Qed.

(** [_start_quiz] with at least 4 slot sounds and both feedback clips
    present starts a quiz: its sequence has [min(QUIZ_ROUNDS, n)] distinct
    keys, [n] the number of slots whose sound file exists, each of them
    such a slot; the round index and the score are 0 and no press is
    pending. *)
Theorem start_quiz_sequence (fs : string -> bool) (s : ctrl) :
  4 <= length (filter (fun k => fs (sound_wav k) = true) slot_keys) ->
  fs CORRECT_WAV = true -> fs INCORRECT_WAV = true ->
  quiz_active (start_quiz fs s).2 = true /\
  q_index (start_quiz fs s).2 = 0 /\ score (start_quiz fs s).2 = 0 /\
  pressed (start_quiz fs s).2 = None /\
  length (quiz_sequence (start_quiz fs s).2) =
    Nat.min QUIZ_ROUNDS (length (filter (fun k => fs (sound_wav k) = true) slot_keys)) /\
  NoDup (quiz_sequence (start_quiz fs s).2) /\
  Forall (fun k => k ∈ slot_keys /\ fs (sound_wav k) = true) (quiz_sequence (start_quiz fs s).2).
Proof.
  intros Hn Hc Hi. unfold start_quiz.
  rewrite bool_decide_false by lia. rewrite Hc, Hi. cbv beta iota delta [negb orb].
  rewrite bind_gets.
  set (eligible := filter (fun k => fs (sound_wav k) = true) slot_keys) in *.
  destruct (sample_spec eligible (Nat.min QUIZ_ROUNDS (length eligible)) (rng s))
    as (r & rng' & Hs & Hlen & Hnd & Hsub); [lia | apply NoDup_filter, slot_keys_NoDup |].
  rewrite Hs. rewrite !modify_seq; cbv beta.
  rewrite seq_nofail by apply end_flash_nofail. cbv beta.
  unfold set_all. rewrite modify_seq; cbv beta.
  destruct end_flash_keeps as (Es & Ei & Eq & _ & Ea).
  pose proof end_flash_keeps_pressed as Ep.
  remember (end_flash _).2 as u eqn:Hu.
  assert (Ht : quiz_active u = true /\ q_index u = 0 /\ score u = 0 /\ pressed u = None /\
               quiz_sequence u = r).
  { rewrite Hu, Ea, Ei, Es, Ep, Eq. done. }
  assert (Hr : Forall (fun k => k ∈ slot_keys /\ fs (sound_wav k) = true) r).
  { apply Forall_forall. intros k Hk. apply Hsub in Hk.
    unfold eligible in Hk. apply list_elem_of_filter in Hk. tauto. }
  clearbody eligible. clear Hu. set (t := set_leds _ u).
  assert (Ht' : quiz_active t = true /\ q_index t = 0 /\ score t = 0 /\ pressed t = None /\
               quiz_sequence t = r) by (unfold t; simpl; exact Ht).
  clear Ht. rename Ht' into Ht.
  destruct Ht as (Ta & Ti & Ts & Tp & Tq). clearbody t.
  destruct (fs QUIZ_READY_WAV) eqn:Er.
  - unfold status_set. rewrite modify_seq; cbv beta.
    destruct (play_audio_locked_keeps_session fs QUIZ_READY_WAV (Some ADPlayQuestion))
      as (K1 & K2 & K3 & K4 & K5).
    destruct (set_status_session "Quiz: Ready" t) as (S1 & S2 & S3 & S4 & S5).
    rewrite K1, K2, K3, K4, K5, S1, S2, S3, S4, S5, Ta, Ti, Ts, Tp, Tq. split_and!; done.
  - destruct (play_question_keeps_session fs t) as (P1 & P2 & P3 & P4 & P5).
    { rewrite Tq. eapply Forall_impl; [exact Hr|]. by intros ? []. }
    rewrite P1, P2, P3, P4, P5, Ta, Ti, Ts, Tp, Tq. split_and!; done.
Qed.

(** [_next_or_end] in an active quiz whose sounds all exist moves to the
    next round, keeping the score; the quiz stays active exactly when a
    round is left, and ends after the last one. *)
Theorem next_or_end_advances (fs : string -> bool) (s : ctrl) :
  quiz_active s = true -> Forall (fun k => fs (sound_wav k) = true) (quiz_sequence s) ->
  q_index (next_or_end fs s).2 = S (q_index s) /\
  score (next_or_end fs s).2 = score s /\
  quiz_active (next_or_end fs s).2 = bool_decide (S (q_index s) < length (quiz_sequence s)).
Proof.
  intros Ha Hall. unfold next_or_end.
  rewrite bind_gets, Ha. cbv beta iota delta [negb].
  rewrite modify_seq; cbv beta. rewrite !bind_gets.
  set (t := set_q_index (S (q_index s)) s).
  assert (Tq : quiz_sequence t = quiz_sequence s) by done.
  assert (Ti : q_index t = S (q_index s)) by done.
  assert (Ts : score t = score s) by done.
  rewrite Tq, Ti.
  case_bool_decide as Hle.
  - destruct (end_quiz_effect fs t) as (A & _ & _ & _ & _ & _ & I & S' & _).
    rewrite A, I, S', Ti, Ts, bool_decide_false by lia. done.
  - destruct (play_question_keeps_session fs t) as (P1 & _ & P3 & P4 & _); [exact Hall|].
    rewrite P1, P3, P4, Ti, Ts, bool_decide_true by lia. done.
Qed.

(* ------------------------------------------------------------------ *)
(** ** Images and file lookup *)

Lemma ceil_div_bounds (w m : Z) :
  (0 < w)%Z -> (0 < m)%Z ->
  (w <= (w + m - 1) / m * m)%Z /\ (((w + m - 1) / m - 1) * m < w)%Z /\ (1 <= (w + m - 1) / m)%Z.
Proof.
  intros Hw Hm.
  pose proof (Z.div_mod (w + m - 1) m ltac:(lia)) as Hd.
  pose proof (Z.mod_pos_bound (w + m - 1) m Hm) as Hb.
  nia.
Qed.

(** [load_and_scale_photo] on an image of positive size: the subsample
    factor [s] is at least 1, the image fits in [s] times the
    [MAX_IMG_W x MAX_IMG_H] box, and no smaller factor would do ([s] is 1
    or [s - 1] times the box is too small in one direction). *)
Theorem photo_scale_fits (w h : Z) :
  (0 < w)%Z -> (0 < h)%Z ->
  exists p, load_and_scale_photo true (Some (w, h)) = Some p /\
    ph_width p = w /\ ph_height p = h /\ (1 <= ph_subsample p)%Z /\
    (w <= ph_subsample p * MAX_IMG_W)%Z /\ (h <= ph_subsample p * MAX_IMG_H)%Z /\
    (ph_subsample p = 1%Z \/ ((ph_subsample p - 1) * MAX_IMG_W < w)%Z \/
     ((ph_subsample p - 1) * MAX_IMG_H < h)%Z).
Proof.
  intros Hw Hh. unfold load_and_scale_photo. simpl.
  rewrite (proj2 (Z.leb_gt w 0) Hw), (proj2 (Z.leb_gt h 0) Hh). simpl.
  destruct (ceil_div_bounds w MAX_IMG_W Hw ltac:(unfold MAX_IMG_W; lia)) as (W1 & W2 & W3).
  destruct (ceil_div_bounds h MAX_IMG_H Hh ltac:(unfold MAX_IMG_H; lia)) as (H1 & H2 & H3).
  set (cx := ((w + MAX_IMG_W - 1) / MAX_IMG_W)%Z) in *.
  set (cy := ((h + MAX_IMG_H - 1) / MAX_IMG_H)%Z) in *.
  assert (Hmw : (0 < MAX_IMG_W)%Z) by (unfold MAX_IMG_W; lia).
  assert (Hmh : (0 < MAX_IMG_H)%Z) by (unfold MAX_IMG_H; lia).
  rewrite (Z.max_r 1 cx W3), (Z.max_r 1 cy H3).
  destruct (Z.ltb_spec 1 (Z.max cx cy)) as [Hs|Hs]; eexists; (split; [reflexivity|]); simpl;
    (split_and!; [done|done| | | |]); try lia;
    destruct (Z.max_spec cx cy) as [[Hl Hm]|[Hl Hm]]; rewrite Hm in *; nia.
Qed.

Lemma find_ci_exists_iff (lower : string -> string) (exists_ : string -> bool)
    (entries : list (string * bool)) (filename : string) :
  (forall p, (p, true) ∈ entries -> exists_ p = true) ->
  exists_ (find_ci lower exists_ entries filename) = true <->
  exists_ filename = true \/ exists p, (p, true) ∈ entries /\ lower p = lower filename.
Proof.
  intros Hent. unfold find_ci.
  destruct (exists_ filename) eqn:Ed; [by split; [left|]|].
  destruct (List.find _ entries) as [[p isf]|] eqn:Ef.
  - apply List.find_some in Ef as [Hin Hc].
    apply andb_prop in Hc as [Hf Hl]. subst isf.
    apply String.eqb_eq in Hl. apply (proj2 (list_elem_of_In _ _)) in Hin.
    rewrite (Hent p Hin). split; [intros _; right; by exists p | done].
  - rewrite Ed. split; [done|]. intros [?|(p & Hin & Hl)]; [done|].
    apply list_elem_of_In in Hin.
    pose proof (List.find_none _ _ Ef (p, true) Hin) as Hn. simpl in Hn.
    rewrite Hl, String.eqb_refl in Hn. done.
Qed.

(** [find_ci(directory, filename)], when every file [iterdir()] lists
    exists: the path it returns exists exactly when [filename] exists
    under its own name or the directory has a file whose name equals it
    up to [str.lower]. *)
Theorem find_ci_finds_any_case (lower : string -> string) (exists_ : string -> bool)
    (entries : list (string * bool)) (filename : string) :
  (forall p, (p, true) ∈ entries -> exists_ p = true) ->
  exists_ (find_ci lower exists_ entries filename) = true <->
  exists_ filename = true \/ exists p, (p, true) ∈ entries /\ lower p = lower filename.
Proof. apply find_ci_exists_iff. Qed.

(** [first_existing_ci(directory, *filenames)], when every file
    [iterdir()] lists exists: a path it returns exists, and it returns
    [None] exactly when none of the names exists in any case. *)
Theorem first_existing_ci_spec (lower : string -> string) (exists_ : string -> bool)
    (entries : list (string * bool)) (filenames : list string) :
  (forall p, (p, true) ∈ entries -> exists_ p = true) ->
  (forall p, first_existing_ci lower exists_ entries filenames = Some p -> exists_ p = true) /\
  (first_existing_ci lower exists_ entries filenames = None <->
   forall n, n ∈ filenames ->
     exists_ n = false /\ forall p, (p, true) ∈ entries -> lower p <> lower n).
Proof.
  intros Hent. unfold first_existing_ci. split.
  - intros p Hp. by apply List.find_some in Hp as [_ ?].
  - induction filenames as [|n ns IH]; simpl.
    + split; [intros _ n Hn; by apply elem_of_nil in Hn | done].
    + destruct (exists_ (find_ci lower exists_ entries n)) eqn:E.
      * split; [done|]. intros Hall.
        destruct (Hall n ltac:(by left)) as [Hn Hp].
        apply (find_ci_exists_iff lower exists_ entries n Hent) in E as [E|(p & Hin & Hl)];
          [congruence | by destruct (Hp p Hin)].
      * rewrite IH. split.
        -- intros Hall m Hm. apply elem_of_cons in Hm as [->|Hm]; [|by apply Hall].
           assert (Hnot := proj1 (not_iff_compat (find_ci_exists_iff lower exists_ entries n Hent))).
           rewrite E in Hnot. specialize (Hnot ltac:(done)).
           split.
           ++ destruct (exists_ n) eqn:Em; [exfalso; apply Hnot; by left|done].
           ++ intros p Hp Hl. apply Hnot. right. by exists p.
        -- intros Hall m Hm. apply Hall. by right.
Qed.

(* ------------------------------------------------------------------ *)
(** ** Instances of the properties above on concrete states *)

Lemma demo_dir_files_exist :
  forall p, (p, true) ∈ [("Correct.WAV", true)] -> String.eqb p "Correct.WAV" = true.
Proof. intros p Hp. apply list_elem_of_singleton in Hp. by inversion Hp. Qed.

Lemma answer_window_buttons_witness :
  quiz_waiting (start_answer_window (set_quiz_active true (initial_ctrl demo_rng))).2 = true.
Proof.
  destruct (answer_window_buttons (set_quiz_active true (initial_ctrl demo_rng))
    ltac:(vm_compute; reflexivity) ltac:(vm_compute; reflexivity)) as [H _].
  exact H.
Defined.

Lemma press_ignored_while_busy_witness :
  on_insect_down "insect1" (set_input_locked true (initial_ctrl demo_rng)) =
    (Some tt, set_input_locked true (initial_ctrl demo_rng)).
Proof.
  destruct (press_ignored_while_busy "insect1" (set_input_locked true (initial_ctrl demo_rng))
    ltac:(left; vm_compute; reflexivity)) as [H _].
  exact H.
Defined.

Lemma hold_fire_after_release_witness :
  insect_hold_fire all_files "insect1"
    (set_pressed (Some ("quiz", "quiz")) (initial_ctrl demo_rng)) =
  (Some tt, set_pressed (Some ("quiz", "quiz")) (initial_ctrl demo_rng)).
Proof.
  destruct (hold_fire_after_release all_files "insect1"
    (set_pressed (Some ("quiz", "quiz")) (initial_ctrl demo_rng))) as [H _].
  apply H. vm_compute. discriminate.
Defined.

Lemma late_timeout_is_harmless_witness :
  timeout all_files (initial_ctrl demo_rng) =
    (Some tt, set_answer_timeout_job None (initial_ctrl demo_rng)).
Proof.
  exact (late_timeout_is_harmless all_files (initial_ctrl demo_rng)
    ltac:(left; vm_compute; reflexivity)).
Defined.

Lemma quiz_callbacks_inert_when_inactive_witness :
  next_or_end all_files (initial_ctrl demo_rng) = (Some tt, initial_ctrl demo_rng).
Proof.
  destruct (quiz_callbacks_inert_when_inactive all_files (initial_ctrl demo_rng)
    ltac:(vm_compute; reflexivity)) as (_ & _ & H & _).
  exact H.
Defined.

Lemma start_quiz_refused_witness :
  start_quiz (fun n => negb (String.eqb n CORRECT_WAV)) (initial_ctrl demo_rng) =
    (Some tt, set_pressed None (set_status
      (if bool_decide (length (filter (fun k => (fun n => negb (String.eqb n CORRECT_WAV))
                                                  (sound_wav k) = true) slot_keys) < 4)
       then "Need at least 4 insect*_sound.wav files for the quiz."
       else "Missing: correct.wav or incorrect.wav") (initial_ctrl demo_rng))).
Proof.
  exact (start_quiz_refused (fun n => negb (String.eqb n CORRECT_WAV)) (initial_ctrl demo_rng)
    ltac:(right; left; vm_compute; reflexivity)).
Defined.

Lemma short_press_plays_sound_witness :
  pressed (on_insect_up all_files "insect1"
             (on_insect_down "insect1" (initial_ctrl demo_rng)).2).2 = None.
Proof.
  pose proof (short_press_plays_sound all_files (initial_ctrl demo_rng) "insect1"
    ltac:(unfold slot_keys, INSECT_KEYS; apply elem_of_cons; by left)
    ltac:(vm_compute; reflexivity) ltac:(vm_compute; reflexivity)
    ltac:(vm_compute; reflexivity) ltac:(vm_compute; reflexivity)) as H.
  cbv zeta in H. destruct H as [H _].
  exact H.
Defined.

Lemma led_set_color_unknown_key_witness :
  led_set_color "insect9" "green" [("insect1", "gray"); ("insect2", "gray")] =
    [("insect1", "gray"); ("insect2", "gray")].
Proof.
  apply led_set_color_unknown_key.
  apply (bool_decide_unpack _). vm_compute. reflexivity.
Defined.

Lemma quiz_short_press_welcomes_witness :
  quiz_active (on_quiz_up all_files (on_quiz_down (initial_ctrl demo_rng)).2).2 = false.
Proof.
  pose proof (quiz_short_press_welcomes all_files (initial_ctrl demo_rng)
    ltac:(vm_compute; reflexivity) ltac:(vm_compute; reflexivity)
    ltac:(vm_compute; reflexivity)) as H.
  cbv zeta in H. destruct H as [H _].
  exact H.
Defined.

Lemma start_quiz_sequence_witness :
  quiz_active (start_quiz all_files (initial_ctrl demo_rng)).2 = true.
Proof.
  destruct (start_quiz_sequence all_files (initial_ctrl demo_rng)
    ltac:(apply (bool_decide_unpack _); vm_compute; reflexivity)
    eq_refl eq_refl) as [H _].
  exact H.
Defined.

Lemma next_or_end_advances_witness :
  q_index (next_or_end all_files demo_answer_window).2 = S (q_index demo_answer_window).
Proof.
  destruct (next_or_end_advances all_files demo_answer_window
    ltac:(vm_compute; reflexivity)
    ltac:(apply Forall_forall; intros; reflexivity)) as [H _].
  exact H.
Defined.

Lemma photo_scale_fits_witness :
  exists p, load_and_scale_photo true (Some (440%Z, 100%Z)) = Some p /\
    ph_width p = 440%Z /\ ph_height p = 100%Z /\ (1 <= ph_subsample p)%Z /\
    (440 <= ph_subsample p * MAX_IMG_W)%Z /\ (100 <= ph_subsample p * MAX_IMG_H)%Z /\
    (ph_subsample p = 1%Z \/ ((ph_subsample p - 1) * MAX_IMG_W < 440)%Z \/
     ((ph_subsample p - 1) * MAX_IMG_H < 100)%Z).
Proof. apply photo_scale_fits; lia. Defined.

Lemma find_ci_finds_any_case_witness :
  String.eqb (find_ci str_lower (fun n => String.eqb n "Correct.WAV")
                [("Correct.WAV", true)] "correct.wav") "Correct.WAV" = true <->
  String.eqb "correct.wav" "Correct.WAV" = true \/
  exists p, (p, true) ∈ [("Correct.WAV", true)] /\ str_lower p = str_lower "correct.wav".
Proof.
  exact (find_ci_finds_any_case str_lower (fun n => String.eqb n "Correct.WAV")
    [("Correct.WAV", true)] "correct.wav" demo_dir_files_exist).
Defined.

Lemma first_existing_ci_spec_witness :
  String.eqb "Correct.WAV" "Correct.WAV" = true.
Proof.
  destruct (first_existing_ci_spec str_lower (fun n => String.eqb n "Correct.WAV")
    [("Correct.WAV", true)] ["quiz_complete.wav"; "correct.wav"] demo_dir_files_exist)
    as [H _].
  apply H. vm_compute. reflexivity.
Defined.
